(** * Zwift Ride key trigger: the frame decoder and the keystroke dispatcher

    A shallow embedding of [ZwiftRideController] (app.py): the notification
    decoder ([notification_handler], [parse_button_state], [parse_key_press],
    [parse_key_group], [parse_analog_message]) and the dispatcher
    ([trigger_keystrokes]), followed by the properties of the specification.

    Conventions of the embedding:
    - a [bytearray] is a [list byte]; [buffer[i]] raises [IndexError] out of
      range, a slice never raises;
    - Python integers are unbounded, so they are [Z] with the bit operations
      of [Z];
    - [dict]s and [set]s keyed by strings are [gmap string _] and
      [gset string]; the order in which a [for] loop visits a [set] is not
      fixed by Python, so it is an explicit argument of the embedding;
    - the calls [keyboard.press] and [keyboard.release] are recorded, in
      order, as a list of [key_action];
    - [time.time()] is an argument; the arithmetic on time stamps is kept
      abstract in the class [Clock];
    - a [while] loop whose termination is not structural takes fuel, and
      running out of it is the outcome [Hangs]. *)

From Stdlib Require Import ZArith QArith Strings.Byte.
From stdpp Require Import gmap strings list fin_maps.

Local Open Scope Z_scope.

(** ** Outcomes of a Python call *)

Inductive exn := IndexError.

Inductive outcome (A : Type) :=
  | Returns (a : A)
  | Raises (e : exn)
  | Hangs.
Arguments Returns {A} a.
Arguments Raises {A} e.
Arguments Hangs {A}.

#[global] Instance outcome_ret : MRet outcome := λ A a, Returns a.
#[global] Instance outcome_bind : MBind outcome := λ A B k r,
  match r with
  | Returns a => k a
  | Raises e => Raises e
  | Hangs => Hangs
  end.

Definition returns {A} (r : outcome A) : Prop := ∃ a, r = Returns a.
Definition raises {A} (r : outcome A) : Prop := ∃ e, r = Raises e.

(** ** Bytes *)

Definition byte_val (b : byte) : Z := Z.of_N (Byte.to_N b).

(** [buffer[i]] *)
Definition getitem (buffer : list byte) (i : nat) : outcome Z :=
  match buffer !! i with
  | Some b => Returns (byte_val b)
  | None => Raises IndexError
  end.

(** [buffer[i:j]] *)
Definition slice (buffer : list byte) (i j : nat) : list byte :=
  take (j - i) (drop i buffer).

(** ** Constants *)

Definition BUTTON_MASKS : list (string * Z) :=
  [ ("LEFT_BTN", 0x1); ("UP_BTN", 0x2); ("RIGHT_BTN", 0x4); ("DOWN_BTN", 0x8);
    ("A_BTN", 0x10); ("B_BTN", 0x20); ("Y_BTN", 0x40); ("Z_BTN", 0x100);
    ("SHFT_UP_L_BTN", 0x200); ("SHFT_DN_L_BTN", 0x400);
    ("POWERUP_L_BTN", 0x800); ("ONOFF_L_BTN", 0x1000);
    ("SHFT_UP_R_BTN", 0x2000); ("SHFT_DN_R_BTN", 0x4000);
    ("POWERUP_R_BTN", 0x10000); ("ONOFF_R_BTN", 0x20000) ].

Definition DEFAULT_KEY_MAPPING : gmap string string :=
  list_to_map
    [ ("LEFT_BTN", "left"); ("UP_BTN", "up"); ("RIGHT_BTN", "right");
      ("DOWN_BTN", "down"); ("A_BTN", "a"); ("B_BTN", "b"); ("Y_BTN", "y");
      ("Z_BTN", "z"); ("SHFT_UP_L_BTN", "w"); ("SHFT_DN_L_BTN", "s");
      ("POWERUP_L_BTN", "space"); ("ONOFF_L_BTN", "escape");
      ("SHFT_UP_R_BTN", "page up"); ("SHFT_DN_R_BTN", "page down");
      ("POWERUP_R_BTN", "p"); ("ONOFF_R_BTN", "enter") ].

(** ** The frame decoder *)

(** The loop of [parse_button_state] over [BUTTON_MASKS.items()], in the
    insertion order of the dictionary; a bit equal to 0 means pressed. *)
Fixpoint parse_button_loop (button_map : Z) (items : list (string * Z))
    (pressed_buttons : list string) : list string :=
  match items with
  | [] => pressed_buttons
  | (button, mask) :: items =>
      if Z.land button_map mask =? 0
      then parse_button_loop button_map items (pressed_buttons ++ [button])
      else parse_button_loop button_map items pressed_buttons
  end.

Definition parse_button_state (button_map : Z) : list string :=
  parse_button_loop button_map BUTTON_MASKS [].

(** [(value >> 1) ^ (-(value & 1))] *)
Definition zigzag_decode (value : Z) : Z :=
  Z.lxor (Z.shiftr value 1) (- (Z.land value 1)).

(** Modelled from the spec: the encoder of the zigzag round trip runs on the
    device and is no part of app.py.  The glossary calls it the bijective
    mapping of signed integers to unsigned varints that keeps small
    magnitudes compact, with 0, -1, 1, -2 sent to 0, 1, 2, 3: the sint32
    encoding [(v << 1) ^ (v >> 31)]. *)
Definition zigzag_encode (v : Z) : Z :=
  Z.lxor (Z.shiftl v 1) (Z.shiftr v 31).

(** The [while True] loop that reads a varint, started at
    [rest = buffer[offset:]]. *)
Fixpoint read_varint (rest : list byte) (offset : nat) (value shift : Z)
    : outcome (Z * nat) :=
  match rest with
  | [] => Raises IndexError
  | b :: rest =>
      let byte := byte_val b in
      let offset := S offset in
      let value := Z.lor value (Z.shiftl (Z.land byte 0x7f) shift) in
      if Z.land byte 0x80 =? 0 then Returns (value, offset)
      else read_varint rest offset value (shift + 7)
  end.

(** [while buffer[offset] & 0x80: offset += 1] followed by [offset += 1],
    as in [parse_key_press]: no bound check. *)
Fixpoint skip_varint (rest : list byte) (offset : nat) : outcome nat :=
  match rest with
  | [] => Raises IndexError
  | b :: rest =>
      if Z.land (byte_val b) 0x80 =? 0 then Returns (S offset)
      else skip_varint rest (S offset)
  end.

(** [while offset < len(buffer) and buffer[offset] & 0x80: offset += 1]
    followed by [if offset < len(buffer): offset += 1], as in
    [parse_key_group]. *)
Fixpoint skip_varint_checked (rest : list byte) (offset : nat) : nat :=
  match rest with
  | [] => offset
  | b :: rest =>
      if Z.land (byte_val b) 0x80 =? 0 then S offset
      else skip_varint_checked rest (S offset)
  end.

Record KeyPress := { location : option Z; value : option Z }.

Fixpoint parse_key_press_loop (fuel : nat) (buffer : list byte)
    (offset : nat) (loc analog_value : option Z) : outcome KeyPress :=
  if decide (offset < length buffer)%nat then
    match fuel with
    | O => Hangs
    | S fuel =>
        tag ← getitem buffer offset;
        let field_num := Z.shiftr tag 3 in
        let wire_type := Z.land tag 0x7 in
        let offset := S offset in
        if (field_num =? 1) && (wire_type =? 0) then
          '(value, offset) ← read_varint (drop offset buffer) offset 0 0;
          parse_key_press_loop fuel buffer offset (Some value) analog_value
        else if (field_num =? 2) && (wire_type =? 0) then
          '(value, offset) ← read_varint (drop offset buffer) offset 0 0;
          parse_key_press_loop fuel buffer offset loc
            (Some (zigzag_decode value))
        else if wire_type =? 0 then
          offset ← skip_varint (drop offset buffer) offset;
          parse_key_press_loop fuel buffer offset loc analog_value
        else if wire_type =? 2 then
          len ← getitem buffer offset;
          parse_key_press_loop fuel buffer (offset + 1 + Z.to_nat len)
            loc analog_value
        else parse_key_press_loop fuel buffer offset loc analog_value
    end
  else Returns {| location := loc; value := analog_value |}.

(** Every iteration moves [offset] forward, so [length buffer] iterations
    are enough (lemma [parse_key_press_total]). *)
Definition parse_key_press (buffer : list byte) : outcome KeyPress :=
  parse_key_press_loop (length buffer) buffer 0 None None.

Fixpoint parse_key_group_loop (fuel : nat) (buffer : list byte)
    (offset : nat) (group_status : gmap Z (option Z))
    : outcome (gmap Z (option Z)) :=
  if decide (offset < length buffer)%nat then
    match fuel with
    | O => Hangs
    | S fuel =>
        tag ← getitem buffer offset;
        let field_num := Z.shiftr tag 3 in
        let wire_type := Z.land tag 0x7 in
        let offset := S offset in
        if (field_num =? 3) && (wire_type =? 2) then
          len ← getitem buffer offset;
          let offset := S offset in
          let message_buffer := slice buffer offset (offset + Z.to_nat len) in
          res ← parse_key_press message_buffer;
          let group_status :=
            match location res with
            | Some l => <[l := value res]> group_status
            | None => group_status
            end in
          parse_key_group_loop fuel buffer (offset + Z.to_nat len) group_status
        else if wire_type =? 0 then
          parse_key_group_loop fuel buffer
            (skip_varint_checked (drop offset buffer) offset) group_status
        else if wire_type =? 2 then
          if decide (offset < length buffer)%nat then
            len ← getitem buffer offset;
            parse_key_group_loop fuel buffer (offset + 1 + Z.to_nat len)
              group_status
          else parse_key_group_loop fuel buffer offset group_status
        else parse_key_group_loop fuel buffer offset group_status
    end
  else Returns group_status.

Definition parse_key_group (buffer : list byte) : outcome (gmap Z (option Z)) :=
  parse_key_group_loop (length buffer) buffer 0 ∅.

(** The dictionary returned by [parse_analog_message]; [res.get(0, 0)] is
    the stored value, which is [None] when the key press had no field 2. *)
Record AnalogMessage := {
  left : option Z;
  right : option Z;
  next_index : nat }.

Definition parse_analog_message (data : list byte)
    : outcome (option AnalogMessage) :=
  match data with
  | [] => Returns None
  | b :: _ =>
      if byte_val b =? 0x1a then
        res ← parse_key_group data;
        Returns (Some {| left := default (Some 0) (res !! 0);
                         right := default (Some 0) (res !! 1);
                         next_index := length data |})
      else Returns None
  end.

(** One iteration of the analog loop of [notification_handler], entered with
    [start_index < len(data)]: [None] is the [break], [Some i] continues with
    [start_index = i]. *)
Definition analog_step (data : list byte) (start_index : nat)
    : outcome (option nat) :=
  analog_data ← parse_analog_message (drop start_index data);
  match analog_data with
  | None => Returns None
  | Some a => Returns (Some (next_index a))
  end.

Fixpoint analog_loop (fuel : nat) (data : list byte) (start_index : nat)
    : outcome unit :=
  if decide (start_index < length data)%nat then
    match fuel with
    | O => Hangs
    | S fuel =>
        next ← analog_step data start_index;
        match next with
        | None => Returns tt
        | Some i => analog_loop fuel data i
        end
    end
  else Returns tt.

(** [data[2] | (data[3] << 8) | (data[4] << 16) | (data[5] << 24)] *)
Definition button_map_of (data : list byte) : outcome Z :=
  b2 ← getitem data 2;
  b3 ← getitem data 3;
  b4 ← getitem data 4;
  b5 ← getitem data 5;
  Returns (Z.lor (Z.lor (Z.lor b2 (Z.shiftl b3 8)) (Z.shiftl b4 16))
                 (Z.shiftl b5 24)).

(** ** The dispatcher *)

Inductive key_action :=
  | Press (key : string)
  | Release (key : string).

#[global] Instance key_action_eq_dec : EqDecision key_action.
Proof. solve_decision. Defined.

Definition action_key (a : key_action) : string :=
  match a with Press key | Release key => key end.

(** The arithmetic that [trigger_keystrokes] does on time stamps:
    the literal [0] of [last_press_time.get(button, 0)], the literal [0.2]
    of [repeat_delay], the subtraction and the comparison [>=]. *)
Class Clock (T : Type) := {
  t_zero : T;
  t_fifth : T;
  t_sub : T → T → T;
  t_ge : T → T → bool }.

(** Exact seconds. *)
#[global] Instance Q_clock : Clock Q := {|
  t_zero := 0%Q;
  t_fifth := (2 # 10)%Q;
  t_sub := Qminus;
  t_ge := λ x y, Qle_bool y x |}.

Section dispatcher.
Context {T : Type} {clock : Clock T}.

(** The attributes of [ZwiftRideController] that the decoder and the
    dispatcher read or write. *)
Record Controller := {
  key_mapping : gmap string string;
  pressed_buttons : gset string;
  last_press_time : gmap string T;
  repeat_delay : T;
  active_keys : gset string }.

(** The controller after [__init__] and [load_key_mapping]: [mapping] is
    the mapping read from the file, or [DEFAULT_KEY_MAPPING] when the file
    could not be read. *)
Definition init (mapping : gmap string string) : Controller := {|
  key_mapping := mapping;
  pressed_buttons := ∅;
  last_press_time := ∅;
  repeat_delay := t_fifth;
  active_keys := ∅ |}.

Definition set_active_keys (keys : gset string) (self : Controller) :=
  {| key_mapping := key_mapping self;
     pressed_buttons := pressed_buttons self;
     last_press_time := last_press_time self;
     repeat_delay := repeat_delay self;
     active_keys := keys |}.

Definition set_last_press_time (times : gmap string T) (self : Controller) :=
  {| key_mapping := key_mapping self;
     pressed_buttons := pressed_buttons self;
     last_press_time := times;
     repeat_delay := repeat_delay self;
     active_keys := active_keys self |}.

Definition set_pressed_buttons (buttons : gset string) (self : Controller) :=
  {| key_mapping := key_mapping self;
     pressed_buttons := buttons;
     last_press_time := last_press_time self;
     repeat_delay := repeat_delay self;
     active_keys := active_keys self |}.

(** A [for] loop whose body updates the controller and calls the keyboard:
    the calls of the iterations, in order. *)
Fixpoint for_each {A} (body : A → Controller → Controller * list key_action)
    (l : list A) (self : Controller) : Controller * list key_action :=
  match l with
  | [] => (self, [])
  | x :: l =>
      let '(self, out) := body x self in
      let '(self, outs) := for_each body l self in
      (self, out ++ outs)
  end.

(** Body of the loop over [current_buttons & self.pressed_buttons]. *)
Definition repeat_body (current_time : T) (button : string)
    (self : Controller) : Controller * list key_action :=
  match key_mapping self !! button with
  | None => (self, [])
  | Some key =>
      let last_time := default t_zero (last_press_time self !! button) in
      if t_ge (t_sub current_time last_time) (repeat_delay self) then
        let '(self, released) :=
          if decide (key ∈ active_keys self)
          then (set_active_keys (active_keys self ∖ {[key]}) self,
                [Release key])
          else (self, []) in
        let self := set_active_keys (active_keys self ∪ {[key]}) self in
        let self :=
          set_last_press_time (<[button := current_time]> (last_press_time self))
            self in
        (self, released ++ [Press key])
      else (self, [])
  end.

(** Body of the loop over [current_buttons - self.pressed_buttons]. *)
Definition press_body (current_time : T) (button : string)
    (self : Controller) : Controller * list key_action :=
  match key_mapping self !! button with
  | None => (self, [])
  | Some key =>
      let self := set_active_keys (active_keys self ∪ {[key]}) self in
      let self :=
        set_last_press_time (<[button := current_time]> (last_press_time self))
          self in
      (self, [Press key])
  end.

(** Body of the loop over [self.pressed_buttons - current_buttons]. *)
Definition release_body (button : string) (self : Controller)
    : Controller * list key_action :=
  match key_mapping self !! button with
  | None => (self, [])
  | Some key =>
      let self :=
        if decide (key ∈ active_keys self)
        then set_active_keys (active_keys self ∖ {[key]}) self
        else self in
      (self, [Release key])
  end.

(** The orders in which one call visits its sets. *)
Record visit := {
  repeat_order : list string;
  press_order : list string;
  release_order : list string;
  idle_order : list string }.

(** [l] is an order in which a [for] loop may visit the set [X]. *)
Definition visits (X : gset string) (l : list string) : Prop :=
  l ≡ₚ elements X.

Definition trigger_visit (self : Controller) (buttons : list string)
    (v : visit) : Prop :=
  let current_buttons : gset string := list_to_set buttons in
  visits (current_buttons ∩ pressed_buttons self) (repeat_order v) ∧
  visits (current_buttons ∖ pressed_buttons self) (press_order v) ∧
  visits (pressed_buttons self ∖ current_buttons) (release_order v).

Definition idle_visit (self : Controller) (v : visit) : Prop :=
  visits (active_keys self) (idle_order v).

(** The order of [elements], for running the embedding. *)
Definition sorted_visit (self : Controller) (buttons : list string) : visit :=
  let current_buttons : gset string := list_to_set buttons in
  {| repeat_order := elements (current_buttons ∩ pressed_buttons self);
     press_order := elements (current_buttons ∖ pressed_buttons self);
     release_order := elements (pressed_buttons self ∖ current_buttons);
     idle_order := elements (active_keys self) |}.

Definition trigger_keystrokes (v : visit) (current_time : T)
    (buttons : list string) (self : Controller)
    : Controller * list key_action :=
  let current_buttons : gset string := list_to_set buttons in
  let '(self, repeats) :=
    for_each (repeat_body current_time) (repeat_order v) self in
  let '(self, presses) :=
    for_each (press_body current_time) (press_order v) self in
  let '(self, releases) := for_each release_body (release_order v) self in
  (set_pressed_buttons current_buttons self, repeats ++ presses ++ releases).

(** [if pressed_buttons: self.trigger_keystrokes(pressed_buttons)] *)
Definition trigger_if_pressed (v : visit) (current_time : T)
    (pressed : list string) (self : Controller)
    : Controller * list key_action :=
  match pressed with
  | [] => (self, [])
  | _ :: _ => trigger_keystrokes v current_time pressed self
  end.

(** The [Idle] branch of [notification_handler]. *)
Definition handle_idle (v : visit) (self : Controller)
    : Controller * list key_action :=
  if decide (active_keys self = ∅) then (self, [])
  else
    let self' := set_pressed_buttons ∅ (set_active_keys ∅ self) in
    (self', Release <$> idle_order v).

(** The body of the [try] of [notification_handler]; the controller and the
    keyboard calls are those made up to the return or the exception. *)
Definition handle (fuel : nat) (v : visit) (current_time : T)
    (data : list byte) (self : Controller)
    : outcome unit * Controller * list key_action :=
  match getitem data 0 with
  | Returns msg_type =>
      if msg_type =? 0x23 then
        match button_map_of data with
        | Returns button_map =>
            let pressed := parse_button_state button_map in
            let '(self, out) := trigger_if_pressed v current_time pressed self in
            (analog_loop fuel data 7, self, out)
        | Raises e => (Raises e, self, [])
        | Hangs => (Hangs, self, [])
        end
      else if msg_type =? 0x2a then (Returns tt, self, [])
      else if msg_type =? 0x15 then
        let '(self, out) := handle_idle v self in (Returns tt, self, out)
      else if msg_type =? 0x19 then (Returns tt, self, [])
      else (Returns tt, self, [])
  | Raises e => (Raises e, self, [])
  | Hangs => (Hangs, self, [])
  end.

(** [except Exception as e: logger.error(...)] *)
Definition notification_handler (fuel : nat) (v : visit) (current_time : T)
    (data : list byte) (self : Controller)
    : outcome unit * Controller * list key_action :=
  let '(r, self, out) := handle fuel v current_time data self in
  (match r with
   | Raises _ => Returns tt
   | _ => r
   end, self, out).

(** The notifications of a connection, delivered to the handler one after
    the other, each with the time and the visiting orders of its call.  A
    call that does not return leaves the later notifications unprocessed. *)
Fixpoint run (fuel : nat) (frames : list (visit * T * list byte))
    (self : Controller) : outcome unit * Controller * list key_action :=
  match frames with
  | [] => (Returns tt, self, [])
  | (v, current_time, data) :: frames =>
      match notification_handler fuel v current_time data self with
      | (Returns _, self, out) =>
          let '(r, self, outs) := run fuel frames self in
          (r, self, out ++ outs)
      | stuck => stuck
      end
  end.

End dispatcher.

Arguments Controller T : clear implicits.

(** ** Notions used by the properties *)

(** The byte has its continuation bit set: it does not end a varint. *)
Definition continues (b : byte) : Prop := Z.land (byte_val b) 0x80 ≠ 0.

(** The loops of [v] with the iterations of [button] left out. *)
Definition skipping (button : string) (v : visit) : visit :=
  {| repeat_order := filter (λ b, b ≠ button) (repeat_order v);
     press_order := filter (λ b, b ≠ button) (press_order v);
     release_order := filter (λ b, b ≠ button) (release_order v);
     idle_order := idle_order v |}.

(** Among the keyboard calls [out], a release of [key] is made after a
    press of [key]. *)
Definition release_after_press (key : string) (out : list key_action) : Prop :=
  ∃ i j : nat, (i < j)%nat ∧
    out !! i = Some (Press key) ∧ out !! j = Some (Release key).

(** [mapping] sends no two buttons of [buttons] to the same key. *)
Definition injective_on (buttons : gset string)
    (mapping : gmap string string) : Prop :=
  ∀ b1 b2 key, b1 ∈ buttons → b2 ∈ buttons →
    mapping !! b1 = Some key → mapping !! b2 = Some key → b1 = b2.

(** The wire type and the field number of a tag byte. *)
Definition wire_type (tag : byte) : Z := Z.land (byte_val tag) 0x7.
Definition field_num (tag : byte) : Z := Z.shiftr (byte_val tag) 3.


(** The number of bytes of the varint at the head of [rest]: up to and
    including the first byte that ends it, or all of [rest] when none
    does. *)
Fixpoint varint_length (rest : list byte) : nat :=
  match rest with
  | [] => 0
  | b :: rest =>
      if Z.land (byte_val b) 0x80 =? 0 then 1 else S (varint_length rest)
  end.



(** The analog part of the frame parses both from index 7 and over the last
    7 bytes. *)
Definition rescans (data : list byte) : Prop :=
  (7 < length data)%nat ∧
  (∃ a, parse_analog_message (drop 7 data) = Returns (Some a)) ∧
  (∃ a, parse_analog_message (drop (length data - 7) data) = Returns (Some a)).

(** ** Notions used by the further properties *)

(** The bits of the bitmask that [parse_button_state] reads: the masks of
    [BUTTON_MASKS] or-ed together. *)
Definition ALL_MASKS : Z :=
  foldr (λ item acc, Z.lor item.2 acc) 0 BUTTON_MASKS.

(** The value of the bytes of a varint: base 128, least significant group
    first, 7 bits per byte. *)
Fixpoint base128 (l : list byte) : Z :=
  match l with
  | [] => 0
  | b :: l => Z.land (byte_val b) 0x7f + 128 * base128 l
  end.

(** The bytes of one varint: continuation bytes and a last byte with the
    high bit clear. *)
Definition varint (l : list byte) : Prop :=
  ∃ cont last, l = cont ++ [last] ∧ Forall continues cont ∧ ¬ continues last.


(** The keys held down on the keyboard after the calls [out], when [held]
    were held before. *)
Definition apply_action (held : gset string) (a : key_action) : gset string :=
  match a with
  | Press key => held ∪ {[key]}
  | Release key => held ∖ {[key]}
  end.

Definition held_after (held : gset string) (out : list key_action)
    : gset string :=
  foldl apply_action held out.

(** The keys that [mapping] gives to the buttons of [buttons]. *)
Definition keys_of (mapping : gmap string string) (buttons : gset string)
    : gset string :=
  list_to_set (omap (λ b, mapping !! b) (elements buttons)).

(** The active keys are the keys of the pressed buttons. *)
Definition consistent {T} (self : Controller T) : Prop :=
  active_keys self = keys_of (key_mapping self) (pressed_buttons self).

(** [disconnect], when the call of the transport returns; [connected] is
    the test [self.client and self.connected], and the loop over
    [self.active_keys] follows [idle_order]. *)
Definition disconnect {T} (v : visit) (connected : bool) (self : Controller T)
    : bool * Controller T * list key_action :=
  if connected then
    (false, set_active_keys ∅ self, Release <$> idle_order v)
  else (connected, self, []).

(** The visiting orders of the frames of a connection fit the controller
    each notification finds. *)
Fixpoint run_visits {T} `{Clock T} (fuel : nat)
    (frames : list (visit * T * list byte)) (self : Controller T) : Prop :=
  match frames with
  | [] => True
  | (v, current_time, data) :: frames =>
      idle_visit self v ∧
      (∀ m, button_map_of data = Returns m →
            trigger_visit self (parse_button_state m) v) ∧
      run_visits fuel frames
        (notification_handler fuel v current_time data self).1.2
  end.

(** ** Frames and states used as examples *)

(** A well-formed button frame of 14 bytes: no button pressed, and one
    analog key press of 7 bytes with location 0 and value 64 (the varint
    [80 01] is 128). *)
Definition rescanned_frame : list byte :=
  [x23; x08; xff; xff; xff; xff; x0f; x1a; x05; x08; x00; x10; x80; x01].

(** [A_BTN] and [B_BTN] pressed, then an analog key press whose location
    varint [80 80] has no terminating byte. *)
Definition malformed_varint_frame : list byte :=
  [x23; x08; xcf; xff; xff; xff; x0f; x1a; x03; x08; x80; x80].

(** [A_BTN] and [B_BTN] pressed, no analog part. *)
Definition a_b_pressed_frame : list byte :=
  [x23; x08; xcf; xff; xff; xff; x0f].

(** Only [A_BTN] pressed. *)
Definition a_pressed_frame : list byte :=
  [x23; x08; xef; xff; xff; xff; x0f].

(** No button pressed. *)
Definition all_released_frame : list byte :=
  [x23; x08; xff; xff; xff; xff; x0f].

(** [A_BTN] and [B_BTN] pressed, then an analog message of 7 bytes: a key
    press with location 0, and a field 1 at the level of the group whose
    varint [80 80] has no terminating byte. *)
Definition skipped_varint_frame : list byte :=
  [x23; x08; xcf; xff; xff; xff; x0f; x1a; x02; x08; x00; x08; x80; x80].

Definition idle_frame : list byte := [x15].

(** * Properties *)

(** ** Button bitmask *)

Lemma parse_button_loop_elem (m : Z) (items : list (string * Z))
    (acc : list string) (button : string) :
  button ∈ parse_button_loop m items acc ↔
  button ∈ acc ∨ ∃ mask, (button, mask) ∈ items ∧ Z.land m mask = 0.
Proof.
  revert acc. induction items as [|[b k] items IH]; intros acc; simpl.
  - split; [auto | intros [?|(? & Hin & _)]; [done | by inversion Hin]].
  - destruct (Z.eqb_spec (Z.land m k) 0) as [Hz|Hnz]; rewrite IH.
    + rewrite elem_of_app, list_elem_of_singleton. split.
      * intros [[? | ->] | (mask & ? & ?)]; [auto | right | right].
        -- exists k. split; [left | done].
        -- exists mask. split; [by right | done].
      * intros [?|(mask & Hin & ?)]; [auto |].
        inversion Hin; subst; [auto | right; eauto].
    + split.
      * intros [?|(mask & ? & ?)]; [auto | right].
        exists mask. split; [by right | done].
      * intros [?|(mask & Hin & ?)]; [auto |].
        inversion Hin; subst; [done | right; eauto].
Qed.

Lemma BUTTON_MASKS_names : NoDup BUTTON_MASKS.*1.
Proof. compute_done. Qed.

Lemma NoDup_fst_functional {A B} (l : list (A * B)) (x : A) (y1 y2 : B) :
  NoDup l.*1 → (x, y1) ∈ l → (x, y2) ∈ l → y1 = y2.
Proof.
  induction l as [|[a b] l IH]; intros Hnd H1 H2; [by inversion H1 |].
  apply NoDup_cons in Hnd as [Hnotin Hnd].
  apply elem_of_cons in H1 as [H1|H1], H2 as [H2|H2]; simplify_eq; auto.
  - destruct Hnotin. apply list_elem_of_fmap. by exists (a, y2).
  - destruct Hnotin. apply list_elem_of_fmap. by exists (a, y1).
Qed.

Lemma BUTTON_MASKS_functional (button : string) (mask mask' : Z) :
  (button, mask) ∈ BUTTON_MASKS → (button, mask') ∈ BUTTON_MASKS →
  mask = mask'.
Proof. apply NoDup_fst_functional, BUTTON_MASKS_names. Qed.

(** C4. For every bitmask [m] (the 32-bit ones included) and each of the 16
    enumerated buttons, [parse_button_state] reports the button as pressed
    exactly when its mask bit is 0 in [m]; [0xFFFFFFFE] yields exactly
    [LEFT_BTN]. *)
Theorem parse_button_state_inverted :
  (∀ (m : Z) (button : string) (mask : Z),
     (button, mask) ∈ BUTTON_MASKS →
     (button ∈ parse_button_state m ↔ Z.land m mask = 0)) ∧
  length BUTTON_MASKS = 16%nat ∧
  parse_button_state 0xFFFFFFFE = ["LEFT_BTN"].
Proof.
  split; [| split; reflexivity].
  intros m button mask Hin. unfold parse_button_state.
  rewrite parse_button_loop_elem. split.
  - intros [Hnil|(mask' & Hin' & Hz)]; [by inversion Hnil |].
    by rewrite (BUTTON_MASKS_functional button mask mask').
  - intros Hz. right. eauto.
Qed.

Lemma parse_button_state_inverted_witness :
  ("A_BTN", 0x10) ∈ BUTTON_MASKS ∧
  ("A_BTN" ∈ parse_button_state 0xFFFFFFEF ↔ Z.land 0xFFFFFFEF 0x10 = 0).
Proof.
  split.
  - do 4 apply list_elem_of_further. apply list_elem_of_here.
  - apply (proj1 parse_button_state_inverted).
    do 4 apply list_elem_of_further. apply list_elem_of_here.
Defined.

(** ** Zigzag *)

Lemma zigzag_encode_nonneg (v : Z) :
  0 ≤ v < 2 ^ 31 → zigzag_encode v = 2 * v.
Proof.
  intros Hv. unfold zigzag_encode.
  rewrite (Z.shiftr_div_pow2 v 31) by lia.
  rewrite Z.div_small by lia.
  rewrite Z.lxor_0_r, Z.shiftl_mul_pow2 by lia. lia.
Qed.

Lemma zigzag_encode_neg (v : Z) :
  - 2 ^ 31 ≤ v < 0 → zigzag_encode v = - 2 * v - 1.
Proof.
  intros Hv. unfold zigzag_encode.
  rewrite (Z.shiftr_div_pow2 v 31) by lia.
  replace (v `div` 2 ^ 31) with (-1)
    by (apply Z.div_unique with (r := v + 2 ^ 31); lia).
  rewrite Z.lxor_m1_r, Z.shiftl_mul_pow2 by lia.
  unfold Z.lnot. lia.
Qed.

Lemma zigzag_decode_even (n : Z) : zigzag_decode (2 * n) = n.
Proof.
  unfold zigzag_decode.
  change (Z.land (2 * n) 1) with (Z.land (2 * n) (Z.ones 1)).
  rewrite Z.land_ones by lia.
  rewrite Z.shiftr_div_pow2 by lia.
  change (2 ^ 1) with 2.
  rewrite (Z.mul_comm 2 n), Z.mod_mul, Z.div_mul by lia.
  apply Z.lxor_0_r.
Qed.

Lemma zigzag_decode_odd (n : Z) : zigzag_decode (2 * n + 1) = - n - 1.
Proof.
  unfold zigzag_decode.
  change (Z.land (2 * n + 1) 1) with (Z.land (2 * n + 1) (Z.ones 1)).
  rewrite Z.land_ones by lia.
  rewrite Z.shiftr_div_pow2 by lia.
  change (2 ^ 1) with 2.
  replace ((2 * n + 1) `mod` 2) with 1
    by (apply Z.mod_unique with (q := n); lia).
  replace ((2 * n + 1) `div` 2) with n
    by (apply Z.div_unique with (r := 1); lia).
  change (- (1)) with (-1). rewrite Z.lxor_m1_r. unfold Z.lnot. lia.
Qed.

(** C8. For every signed 32-bit [v], the decoder's formula
    [(raw >> 1) ^ -(raw & 1)] applied to the zigzag encoding of [v] gives
    [v] back, and the encoding sends 0, -1, 1, -2 to 0, 1, 2, 3. *)
Theorem zigzag_round_trip (v : Z) :
  - 2 ^ 31 ≤ v < 2 ^ 31 →
  zigzag_decode (zigzag_encode v) = v ∧
  zigzag_encode 0 = 0 ∧ zigzag_encode (-1) = 1 ∧
  zigzag_encode 1 = 2 ∧ zigzag_encode (-2) = 3.
Proof.
  intros Hv. split; [| repeat split; reflexivity].
  destruct (Z.neg_nonneg_cases v) as [Hneg|Hpos].
  - rewrite zigzag_encode_neg by lia.
    replace (- 2 * v - 1) with (2 * (- v - 1) + 1) by lia.
    rewrite zigzag_decode_odd. lia.
  - rewrite zigzag_encode_nonneg by lia. apply zigzag_decode_even.
Qed.

(** The decoder applies the formula to the varint of field 2: the key press
    [08 00 10 03] has location 0 and value -2. *)
Example parse_key_press_zigzag :
  parse_key_press [x08; x00; x10; x03] =
  Returns {| location := Some 0; value := Some (-2) |}.
Proof. reflexivity. Qed.

Lemma zigzag_round_trip_witness :
  zigzag_decode (zigzag_encode (-5)) = -5 ∧
  zigzag_encode 0 = 0 ∧ zigzag_encode (-1) = 1 ∧
  zigzag_encode 1 = 2 ∧ zigzag_encode (-2) = 3.
Proof. apply (zigzag_round_trip (-5)). lia. Defined.

(** ** The nested parse terminates, with a result or an [IndexError] *)

Lemma bind_not_hangs {A B} (r : outcome A) (k : A → outcome B) :
  r ≠ Hangs → (∀ a, r = Returns a → k a ≠ Hangs) → r ≫= k ≠ Hangs.
Proof. destruct r; simpl; intros Hr Hk; [by apply Hk | done | done]. Qed.

Lemma getitem_not_hangs (buffer : list byte) (i : nat) :
  getitem buffer i ≠ Hangs.
Proof. unfold getitem. by destruct (buffer !! i). Qed.

Lemma getitem_raises (buffer : list byte) (i : nat) :
  getitem buffer i = Raises IndexError ↔ (length buffer ≤ i)%nat.
Proof.
  unfold getitem. destruct (buffer !! i) eqn:E.
  - apply lookup_lt_Some in E. split; [done | lia].
  - apply lookup_ge_None in E. done.
Qed.

Lemma read_varint_offset (rest : list byte) (offset : nat) (value shift : Z)
    (v : Z) (o : nat) :
  read_varint rest offset value shift = Returns (v, o) →
  (offset < o ≤ offset + length rest)%nat.
Proof.
  revert offset value shift.
  induction rest as [|b rest IH]; intros offset value shift; simpl; [done |].
  destruct (Z.land (byte_val b) 128 =? 0).
  - intros [= _ <-]. lia.
  - intros Hr. apply IH in Hr. lia.
Qed.

Lemma read_varint_not_hangs (rest : list byte) (offset : nat)
    (value shift : Z) :
  read_varint rest offset value shift ≠ Hangs.
Proof.
  revert offset value shift.
  induction rest as [|b rest IH]; intros offset value shift; simpl; [done |].
  by destruct (Z.land (byte_val b) 128 =? 0).
Qed.

Lemma skip_varint_offset (rest : list byte) (offset o : nat) :
  skip_varint rest offset = Returns o →
  (offset < o ≤ offset + length rest)%nat.
Proof.
  revert offset. induction rest as [|b rest IH]; intros offset; simpl; [done |].
  destruct (Z.land (byte_val b) 128 =? 0).
  - intros [= <-]. lia.
  - intros Hr. apply IH in Hr. lia.
Qed.

Lemma skip_varint_not_hangs (rest : list byte) (offset : nat) :
  skip_varint rest offset ≠ Hangs.
Proof.
  revert offset. induction rest as [|b rest IH]; intros offset; simpl; [done |].
  by destruct (Z.land (byte_val b) 128 =? 0).
Qed.

Lemma skip_varint_checked_ge (rest : list byte) (offset : nat) :
  (offset ≤ skip_varint_checked rest offset)%nat.
Proof.
  revert offset. induction rest as [|b rest IH]; intros offset; simpl; [lia |].
  destruct (Z.land (byte_val b) 128 =? 0); [lia |].
  specialize (IH (S offset)). lia.
Qed.

(** A varint with no terminating byte before the end of the buffer makes
    the unchecked loops of [parse_key_press] raise, and only that does. *)
Lemma read_varint_raises (rest : list byte) (offset : nat) (value shift : Z) :
  raises (read_varint rest offset value shift) ↔ Forall continues rest.
Proof.
  revert offset value shift.
  induction rest as [|b rest IH]; intros offset value shift; simpl.
  - split; [constructor | by exists IndexError].
  - rewrite Forall_cons. unfold continues at 1.
    destruct (Z.eqb_spec (Z.land (byte_val b) 128) 0) as [Hz|Hnz].
    + split; [by intros [e ?] | by intros [? _]].
    + rewrite IH. tauto.
Qed.

Lemma skip_varint_raises (rest : list byte) (offset : nat) :
  raises (skip_varint rest offset) ↔ Forall continues rest.
Proof.
  revert offset. induction rest as [|b rest IH]; intros offset; simpl.
  - split; [constructor | by exists IndexError].
  - rewrite Forall_cons. unfold continues at 1.
    destruct (Z.eqb_spec (Z.land (byte_val b) 128) 0) as [Hz|Hnz].
    + split; [by intros [e ?] | by intros [? _]].
    + rewrite IH. tauto.
Qed.

Lemma parse_key_press_loop_total (fuel : nat) (buffer : list byte)
    (offset : nat) (loc analog_value : option Z) :
  (length buffer - offset ≤ fuel)%nat →
  parse_key_press_loop fuel buffer offset loc analog_value ≠ Hangs.
Proof.
  revert offset loc analog_value.
  induction fuel as [|fuel IH]; intros offset loc analog_value Hfuel; simpl;
    case_decide; try done; try lia.
  apply bind_not_hangs; [apply getitem_not_hangs | intros tag _].
  repeat case_match.
  - apply bind_not_hangs; [apply read_varint_not_hangs |].
    intros [v o] Hr. apply read_varint_offset in Hr. apply IH. lia.
  - apply bind_not_hangs; [apply read_varint_not_hangs |].
    intros [v o] Hr. apply read_varint_offset in Hr. apply IH. lia.
  - apply bind_not_hangs; [apply skip_varint_not_hangs |].
    intros o Hr. apply skip_varint_offset in Hr. apply IH. lia.
  - apply bind_not_hangs; [apply getitem_not_hangs |].
    intros len _. apply IH. lia.
  - apply IH. lia.
Qed.

Lemma parse_key_press_total (buffer : list byte) :
  parse_key_press buffer ≠ Hangs.
Proof. apply parse_key_press_loop_total. lia. Qed.

Lemma parse_key_group_loop_total (fuel : nat) (buffer : list byte)
    (offset : nat) (group_status : gmap Z (option Z)) :
  (length buffer - offset ≤ fuel)%nat →
  parse_key_group_loop fuel buffer offset group_status ≠ Hangs.
Proof.
  revert offset group_status.
  induction fuel as [|fuel IH]; intros offset group_status Hfuel; simpl;
    case_decide; try done; try lia.
  apply bind_not_hangs; [apply getitem_not_hangs | intros tag _].
  repeat case_match.
  - apply bind_not_hangs; [apply getitem_not_hangs | intros len _].
    apply bind_not_hangs; [apply parse_key_press_total | intros res _].
    apply IH. lia.
  - apply IH.
    pose proof (skip_varint_checked_ge (drop (S offset) buffer) (S offset)).
    lia.
  - apply bind_not_hangs; [apply getitem_not_hangs | intros len _].
    apply IH. lia.
  - apply IH. lia.
  - apply IH. lia.
Qed.

Lemma parse_key_group_total (buffer : list byte) :
  parse_key_group buffer ≠ Hangs.
Proof. apply parse_key_group_loop_total. lia. Qed.

Lemma parse_analog_message_total (data : list byte) :
  parse_analog_message data ≠ Hangs.
Proof.
  unfold parse_analog_message. destruct data as [|b data]; [done |].
  case_match; [| done].
  apply bind_not_hangs; [apply parse_key_group_total | done].
Qed.


Lemma bind_returns {A B} (a : A) (k : A → outcome B) : Returns a ≫= k = k a.
Proof. reflexivity. Qed.

(** ** When the nested parse returns and when it raises *)

Lemma varint_length_le (rest : list byte) :
  (varint_length rest ≤ length rest)%nat.
Proof.
  induction rest as [|b rest IH]; simpl; [lia |].
  destruct (Z.land (byte_val b) 128 =? 0); lia.
Qed.

Lemma varint_length_pos (b : byte) (rest : list byte) :
  (0 < varint_length (b :: rest))%nat.
Proof. simpl. destruct (Z.land (byte_val b) 128 =? 0); lia. Qed.








Lemma drop_lookup_cons (buffer : list byte) (offset : nat) (b : byte) :
  buffer !! offset = Some b → drop offset buffer = b :: drop (S offset) buffer.
Proof. intros Hb. by apply drop_S. Qed.














Lemma total_cases {A} (r : outcome A) : r ≠ Hangs → returns r ∨ raises r.
Proof. destruct r; [left | right | done]; eexists; reflexivity. Qed.

(** A varint that starts a key press and has no terminating byte. *)
Lemma parse_key_press_unterminated (tag : byte) (rest : list byte) :
  Z.land (byte_val tag) 0x7 = 0 → Forall continues rest →
  parse_key_press (tag :: rest) = Raises IndexError.
Proof.
  intros Hwire Hrest. unfold parse_key_press. simpl.
  rewrite Hwire. simpl.
  assert (Hr : ∀ o v s, read_varint rest o v s = Raises IndexError).
  { intros o v s.
    by destruct (proj2 (read_varint_raises rest o v s) Hrest) as [[] ?]. }
  assert (Hs : ∀ o, skip_varint rest o = Raises IndexError).
  { intros o. by destruct (proj2 (skip_varint_raises rest o) Hrest) as [[] ?]. }
  repeat case_match; rewrite ?Hr, ?Hs; done.
Qed.



(** ** The analog loop *)

Lemma parse_analog_message_next_index (data : list byte) (a : AnalogMessage) :
  parse_analog_message data = Returns (Some a) → next_index a = length data.
Proof.
  unfold parse_analog_message. destruct data as [|b data]; [done |].
  case_match; [| done].
  destruct (parse_key_group (b :: data)); simpl; [| done | done].
  by intros [= <-].
Qed.

Lemma analog_loop_rescanned (fuel : nat) :
  analog_loop fuel rescanned_frame 7 = Hangs.
Proof. induction fuel as [|fuel IH]; [reflexivity |]. exact IH. Qed.

Lemma analog_step_some (data : list byte) (start : nat) (a : AnalogMessage) :
  parse_analog_message (drop start data) = Returns (Some a) →
  analog_step data start = Returns (Some (length data - start)%nat).
Proof.
  intros Hparse. unfold analog_step. rewrite Hparse. simpl.
  by rewrite (parse_analog_message_next_index _ _ Hparse), length_drop.
Qed.

Lemma analog_loop_cycle (data : list byte) (fuel : nat) :
  rescans data →
  analog_loop fuel data 7 = Hangs ∧
  analog_loop fuel data (length data - 7) = Hangs.
Proof.
  intros (Hlen & [a Ha] & [a' Ha']).
  apply analog_step_some in Ha, Ha'.
  replace (length data - (length data - 7))%nat with 7%nat in Ha' by lia.
  induction fuel as [|fuel [IH7 IHn]]; simpl.
  - rewrite !decide_True by lia. done.
  - rewrite !decide_True by lia. rewrite Ha, Ha'. simpl. done.
Qed.

Lemma analog_loop_unfold (fuel : nat) (data : list byte) (start : nat) :
  analog_loop (S fuel) data start =
  if decide (start < length data)%nat then
    next ← analog_step data start;
    match next with
    | None => Returns tt
    | Some i => analog_loop fuel data i
    end
  else Returns tt.
Proof. reflexivity. Qed.

Lemma analog_loop_two (data : list byte) (fuel : nat) :
  ¬ rescans data → (2 ≤ fuel)%nat →
  analog_loop fuel data 7 = analog_loop 2 data 7 ∧
  analog_loop 2 data 7 ≠ Hangs.
Proof.
  intros Hno Hfuel.
  destruct fuel as [|[|fuel]]; [lia | lia |].
  rewrite !(analog_loop_unfold _ data 7).
  destruct (decide (7 < length data)%nat) as [Hlen|Hlen]; [| done].
  destruct (parse_analog_message (drop 7 data)) as [[a|]|e|] eqn:H7.
  - rewrite (analog_step_some _ _ _ H7), !bind_returns.
    rewrite !(analog_loop_unfold _ data (length data - 7)).
    rewrite decide_True by lia.
    destruct (parse_analog_message (drop (length data - 7) data))
      as [[a'|]|e|] eqn:Hn.
    + destruct Hno. split; [done |]. split; eauto.
    + unfold analog_step. rewrite Hn. simpl. by rewrite ?decide_True by lia.
    + unfold analog_step. rewrite Hn. simpl. by rewrite ?decide_True by lia.
    + by apply parse_analog_message_total in Hn.
  - unfold analog_step. rewrite H7. simpl. done.
  - unfold analog_step. rewrite H7. simpl. done.
  - by apply parse_analog_message_total in H7.
Qed.

Section handler.
Context {T : Type} {clock : Clock T}.
Implicit Types (self : Controller T) (v : visit) (now : T).






End handler.



(** C10. A result of [parse_analog_message] has [next_index] equal to the
    length of the slice it was given; but the handler stores that length in
    [start_index], an index into the whole frame, so the loop does not stop
    after one sub-message: on [rescanned_frame] the sub-message at index 7
    is parsed, the loop continues at index 7 again, and the handler never
    returns. *)
Theorem analog_loop_rescans :
  (∀ data,
     match parse_analog_message data with
     | Returns (Some a) => next_index a = length data
     | _ => True
     end) ∧
  length rescanned_frame = 14%nat ∧
  parse_analog_message (drop 7 rescanned_frame) =
    Returns (Some {| left := Some 64; right := Some 0; next_index := 7 |}) ∧
  analog_step rescanned_frame 7 = Returns (Some 7%nat) ∧
  (∀ fuel, analog_loop fuel rescanned_frame 7 = Hangs) ∧
  (∀ (T : Type) (clock : Clock T) fuel v (now : T) (self : Controller T),
     notification_handler fuel v now rescanned_frame self = (Hangs, self, [])).
Proof.
  split; [| do 3 (split; [reflexivity |]); split].
  - intros data. destruct (parse_analog_message data) as [[a|]| |] eqn:E; auto.
    by apply parse_analog_message_next_index.
  - apply analog_loop_rescanned.
  - intros T clock fuel v now self. unfold notification_handler, handle.
    change (getitem rescanned_frame 0) with (Returns (A := Z) 0x23).
    change (button_map_of rescanned_frame) with (Returns (A := Z) 0xFFFFFFFF).
    simpl. by rewrite analog_loop_rescanned.
Qed.

(** ** Button frames *)

Section button_frames.
Context {T : Type} {clock : Clock T}.
Implicit Types (self : Controller T) (v : visit) (now : T).

(** A button frame: the dispatch of its buttons, then the analog loop,
    whose exception is caught. *)
Lemma handler_button_frame fuel v now data self button_map :
  getitem data 0 = Returns 0x23 →
  button_map_of data = Returns button_map →
  notification_handler fuel v now data self =
  (match analog_loop fuel data 7 with
   | Raises _ => Returns tt
   | r => r
   end,
   (trigger_if_pressed v now (parse_button_state button_map) self).1,
   (trigger_if_pressed v now (parse_button_state button_map) self).2).
Proof.
  intros Hty Hmap. unfold notification_handler, handle.
  rewrite Hty, Hmap. cbv beta iota zeta. change (35 =? 35) with true.
  cbv iota.
  destruct (trigger_if_pressed v now (parse_button_state button_map) self).
  by destruct (analog_loop fuel data 7).
Qed.

Lemma analog_loop_short (fuel : nat) (data : list byte) :
  (length data ≤ 7)%nat → analog_loop fuel data 7 = Returns tt.
Proof.
  intros Hlen. destruct fuel; simpl; by rewrite decide_False by lia.
Qed.

End button_frames.

(** ** A varint without end in the analog part *)

Lemma skipped_varint_frame_rescans : rescans skipped_varint_frame.
Proof. split; [simpl; lia |]. split; eexists; vm_compute; reflexivity. Qed.

(** C7. A varint with no terminating byte, in a field of the analog group,
    is skipped by the bound-checked loop of [parse_key_group] without any
    failure; the message parses, its 7 bytes are scanned again and again,
    and the handler never returns: [Press a] and [Press b] were made, and
    the notifications that follow are not processed.  The same varint
    inside a key press raises [IndexError], which the handler catches: it
    returns, with [Press a] and [Press b] made. *)
Theorem skipped_varint_hangs_the_handler :
  let self0 : Controller Q := init DEFAULT_KEY_MAPPING in
  let v := sorted_visit self0 ["A_BTN"; "B_BTN"] in
  drop 11 skipped_varint_frame = [x08; x80; x80] ∧
  Forall continues [x80; x80] ∧
  parse_key_group (drop 7 skipped_varint_frame) = Returns {[0 := None]} ∧
  analog_step skipped_varint_frame 7 = Returns (Some 7%nat) ∧
  (∀ fuel, analog_loop fuel skipped_varint_frame 7 = Hangs) ∧
  (∀ fuel,
     (notification_handler fuel v 0%Q skipped_varint_frame self0).1.1 = Hangs ∧
     (notification_handler fuel v 0%Q skipped_varint_frame self0).2 =
       [Press "a"; Press "b"]) ∧
  (∀ fuel frames,
     run fuel ((v, 0%Q, skipped_varint_frame) :: frames) self0 =
     notification_handler fuel v 0%Q skipped_varint_frame self0) ∧
  parse_analog_message (drop 7 malformed_varint_frame) = Raises IndexError ∧
  (notification_handler 8 v 0%Q malformed_varint_frame self0).1.1 = Returns tt ∧
  (notification_handler 8 v 0%Q malformed_varint_frame self0).2 =
    [Press "a"; Press "b"].
Proof.
  intros self0 v.
  assert (Hloop : ∀ fuel, analog_loop fuel skipped_varint_frame 7 = Hangs).
  { intros fuel.
    apply (analog_loop_cycle _ fuel skipped_varint_frame_rescans). }
  assert (Hh : ∀ fuel,
    notification_handler fuel v 0%Q skipped_varint_frame self0 =
    (Hangs,
     (trigger_if_pressed v 0%Q (parse_button_state 0xFFFFFFCF) self0).1,
     (trigger_if_pressed v 0%Q (parse_button_state 0xFFFFFFCF) self0).2)).
  { intros fuel.
    rewrite (handler_button_frame fuel v 0%Q skipped_varint_frame self0
               0xFFFFFFCF) by reflexivity.
    by rewrite Hloop. }
  split; [reflexivity |].
  split; [by repeat constructor |].
  split; [vm_compute; reflexivity |].
  split; [reflexivity |].
  split; [exact Hloop |]. split.
  - intros fuel. rewrite Hh. split; [reflexivity | vm_compute; reflexivity].
  - split; [| repeat split; vm_compute; reflexivity].
    intros fuel frames. simpl. by rewrite Hh.
Qed.

(** ** The dispatcher: loops *)

Section loops.
Context {T : Type} {clock : Clock T}.
Implicit Types (self s : Controller T) (v : visit) (now : T).
Implicit Types (body : string → Controller T → Controller T * list key_action).

Lemma for_each_cons body x l s :
  for_each body (x :: l) s =
  ((for_each body l (body x s).1).1,
   (body x s).2 ++ (for_each body l (body x s).1).2).
Proof.
  simpl. destruct (body x s) as [s1 o1]. simpl.
  by destruct (for_each body l s1).
Qed.

Lemma for_each_app body l1 l2 s :
  for_each body (l1 ++ l2) s =
  ((for_each body l2 (for_each body l1 s).1).1,
   (for_each body l1 s).2 ++ (for_each body l2 (for_each body l1 s).1).2).
Proof.
  revert s. induction l1 as [|x l1 IH]; intros s.
  - simpl. by destruct (for_each body l2 s).
  - rewrite <- app_comm_cons, !for_each_cons, IH. simpl.
    by rewrite app_assoc.
Qed.

(** What every iteration keeps, the loop keeps. *)
Lemma for_each_keeps {X} (f : Controller T → X) body l s :
  (∀ x s', x ∈ l → f (body x s').1 = f s') →
  f (for_each body l s).1 = f s.
Proof.
  revert s. induction l as [|x l IH]; intros s Hbody; [done |].
  rewrite for_each_cons. simpl. rewrite IH.
  - apply Hbody. left.
  - intros y s' Hy. apply Hbody. by right.
Qed.

(** The same, for iterations that keep it on the controllers with the key
    mapping [mapping], which no iteration changes. *)
Lemma for_each_keeps_mapped {X} (f : Controller T → X) mapping body l s :
  (∀ x s', key_mapping (body x s').1 = key_mapping s') →
  (∀ x s', x ∈ l → key_mapping s' = mapping → f (body x s').1 = f s') →
  key_mapping s = mapping →
  f (for_each body l s).1 = f s.
Proof.
  intros Hmap. revert s. induction l as [|x l IH]; intros s Hbody Hs; [done |].
  rewrite for_each_cons. simpl. rewrite IH.
  - apply Hbody; [left | done].
  - intros y s' Hy. apply Hbody. by right.
  - by rewrite Hmap.
Qed.

(** An iteration that changes nothing and calls nothing can be left out. *)
Lemma for_each_filter mapping body (P : string → Prop)
    `{∀ x, Decision (P x)} l s :
  (∀ x s', key_mapping (body x s').1 = key_mapping s') →
  (∀ x s', ¬ P x → key_mapping s' = mapping → body x s' = (s', [])) →
  key_mapping s = mapping →
  for_each body (filter P l) s = for_each body l s.
Proof.
  intros Hmap Hskip. revert s. induction l as [|x l IH]; intros s Hs; [done |].
  rewrite filter_cons. destruct (decide (P x)) as [Hx|Hx].
  - rewrite !for_each_cons, !IH; [done | by rewrite Hmap].
  - rewrite for_each_cons, (Hskip x s Hx Hs), IH by done. simpl.
    by destruct (for_each body l s).
Qed.

(** Every call of a loop is a call of one of its iterations, run on a
    controller with the key mapping the loop started with. *)
Lemma for_each_elem body l s a :
  (∀ x s', key_mapping (body x s').1 = key_mapping s') →
  a ∈ (for_each body l s).2 →
  ∃ x s', x ∈ l ∧ key_mapping s' = key_mapping s ∧ a ∈ (body x s').2.
Proof.
  intros Hkeep. revert s. induction l as [|x l IH]; intros s.
  - simpl. by intros ?%elem_of_nil.
  - rewrite for_each_cons. simpl. intros [Ha|Ha]%elem_of_app.
    + exists x, s. split; [left | done].
    + apply IH in Ha as (y & s' & Hy & Hmap & Ha).
      exists y, s'. split; [by right |]. split; [| done].
      by rewrite Hmap, Hkeep.
Qed.

Lemma sorted_visit_trigger self buttons :
  trigger_visit self buttons (sorted_visit self buttons).
Proof. unfold trigger_visit, visits. simpl. repeat split; reflexivity. Qed.

Lemma sorted_visit_idle self buttons :
  idle_visit self (sorted_visit self buttons).
Proof. unfold idle_visit, visits. reflexivity. Qed.

Lemma trigger_keystrokes_unfold v now buttons self :
  trigger_keystrokes v now buttons self =
  let r1 := for_each (repeat_body now) (repeat_order v) self in
  let r2 := for_each (press_body now) (press_order v) r1.1 in
  let r3 := for_each release_body (release_order v) r2.1 in
  (set_pressed_buttons (list_to_set buttons) r3.1, r1.2 ++ r2.2 ++ r3.2).
Proof.
  unfold trigger_keystrokes.
  destruct (for_each (repeat_body now) (repeat_order v) self) as [s1 o1].
  simpl. destruct (for_each (press_body now) (press_order v) s1) as [s2 o2].
  simpl. by destruct (for_each release_body (release_order v) s2) as [s3 o3].
Qed.

(** *** The three bodies *)

Lemma repeat_body_key_mapping now b s :
  key_mapping (repeat_body now b s).1 = key_mapping s.
Proof. unfold repeat_body. by repeat case_match; simplify_eq/=. Qed.

Lemma press_body_key_mapping now b s :
  key_mapping (press_body now b s).1 = key_mapping s.
Proof. unfold press_body. by repeat case_match; simplify_eq/=. Qed.

Lemma release_body_key_mapping b s :
  key_mapping (release_body b s).1 = key_mapping s.
Proof. unfold release_body. by repeat case_match; simplify_eq/=. Qed.

Lemma repeat_body_repeat_delay now b s :
  repeat_delay (repeat_body now b s).1 = repeat_delay s.
Proof. unfold repeat_body. by repeat case_match; simplify_eq/=. Qed.

Lemma repeat_body_other_time now b b' s :
  b ≠ b' →
  last_press_time (repeat_body now b s).1 !! b' = last_press_time s !! b'.
Proof.
  intros Hne. unfold repeat_body. repeat case_match; simplify_eq/=; try done;
    by rewrite lookup_insert_ne.
Qed.

Lemma press_body_other_time now b b' s :
  b ≠ b' →
  last_press_time (press_body now b s).1 !! b' = last_press_time s !! b'.
Proof.
  intros Hne. unfold press_body. case_match; simpl; [| done].
  by rewrite lookup_insert_ne.
Qed.

Lemma release_body_last_press_time b s :
  last_press_time (release_body b s).1 = last_press_time s.
Proof. unfold release_body. by repeat case_match; simplify_eq/=. Qed.

Lemma repeat_body_unmapped now b s :
  key_mapping s !! b = None → repeat_body now b s = (s, []).
Proof. unfold repeat_body. by intros ->. Qed.

Lemma press_body_unmapped now b s :
  key_mapping s !! b = None → press_body now b s = (s, []).
Proof. unfold press_body. by intros ->. Qed.

Lemma release_body_unmapped b s :
  key_mapping s !! b = None → release_body b s = (s, []).
Proof. unfold release_body. by intros ->. Qed.

Lemma repeat_body_elem now b s a :
  a ∈ (repeat_body now b s).2 → key_mapping s !! b = Some (action_key a).
Proof.
  unfold repeat_body.
  destruct (key_mapping s !! b) as [key|]; [| by intros ?%elem_of_nil].
  destruct (t_ge _ _); [| by intros ?%elem_of_nil].
  destruct (decide _); simpl; intros Ha;
    repeat (apply elem_of_cons in Ha as [-> | Ha]; [done |]);
    by apply elem_of_nil in Ha.
Qed.

Lemma press_body_elem now b s a :
  a ∈ (press_body now b s).2 →
  ∃ key, a = Press key ∧ key_mapping s !! b = Some key.
Proof.
  unfold press_body. destruct (key_mapping s !! b) as [key|]; simpl.
  - intros ->%list_elem_of_singleton. eauto.
  - by intros ?%elem_of_nil.
Qed.

Lemma release_body_elem b s a :
  a ∈ (release_body b s).2 →
  ∃ key, a = Release key ∧ key_mapping s !! b = Some key.
Proof.
  unfold release_body. destruct (key_mapping s !! b) as [key|]; simpl.
  - intros ->%list_elem_of_singleton. eauto.
  - by intros ?%elem_of_nil.
Qed.

(** The calls of the release loop: one [Release] per mapped button. *)
Lemma release_loop_calls l s :
  (for_each release_body l s).2 =
  omap (λ b, Release <$> key_mapping s !! b) l.
Proof.
  revert s. induction l as [|b l IH]; intros s; [done |].
  rewrite for_each_cons. simpl. rewrite IH, release_body_key_mapping.
  unfold release_body. by destruct (key_mapping s !! b).
Qed.

Lemma press_loop_presses now l s a :
  a ∈ (for_each (press_body now) l s).2 →
  ∃ b key, b ∈ l ∧ a = Press key ∧ key_mapping s !! b = Some key.
Proof.
  intros (b & s' & Hb & Hs' & Ha)%for_each_elem;
    [| intros; apply press_body_key_mapping].
  apply press_body_elem in Ha as (key & -> & Hkey).
  exists b, key. by rewrite <- Hs'.
Qed.

Lemma release_loop_releases l s a :
  a ∈ (for_each release_body l s).2 →
  ∃ b key, b ∈ l ∧ a = Release key ∧ key_mapping s !! b = Some key.
Proof.
  intros (b & s' & Hb & Hs' & Ha)%for_each_elem;
    [| intros; apply release_body_key_mapping].
  apply release_body_elem in Ha as (key & -> & Hkey).
  exists b, key. by rewrite <- Hs'.
Qed.

Lemma repeat_loop_calls now l s a :
  a ∈ (for_each (repeat_body now) l s).2 →
  ∃ b, b ∈ l ∧ key_mapping s !! b = Some (action_key a).
Proof.
  intros (b & s' & Hb & Hs' & Ha)%for_each_elem;
    [| intros; apply repeat_body_key_mapping].
  apply repeat_body_elem in Ha. exists b. by rewrite <- Hs'.
Qed.

Lemma trigger_keystrokes_key_mapping v now buttons self :
  key_mapping (trigger_keystrokes v now buttons self).1 = key_mapping self.
Proof.
  rewrite trigger_keystrokes_unfold. simpl.
  rewrite (for_each_keeps key_mapping)
    by (intros; apply release_body_key_mapping).
  rewrite (for_each_keeps key_mapping)
    by (intros; apply press_body_key_mapping).
  apply (for_each_keeps key_mapping). intros. apply repeat_body_key_mapping.
Qed.

End loops.

(** ** Idle frames *)

Section idle.
Context {T : Type} {clock : Clock T}.
Implicit Types (self s : Controller T) (v : visit) (now : T).

Lemma handler_idle fuel v now data self :
  head data = Some x15 →
  notification_handler fuel v now data self =
  (Returns tt, (handle_idle v self).1, (handle_idle v self).2).
Proof.
  intros Hhd. destruct data as [|b data]; simplify_eq/=.
  unfold notification_handler, handle.
  change (getitem (x15 :: data) 0) with (Returns (A := Z) 0x15). simpl.
  by destruct (handle_idle v self).
Qed.

(** C2 (as amended). An [Idle] frame releases every active key once and
    presses or releases nothing else, and leaves no key active.  The set of
    pressed buttons is emptied when some key was active; when none was, no
    key action is made and the controller, its set of pressed buttons
    included, is left as it was. *)
Theorem idle_releases_active_keys fuel v now data self :
  head data = Some x15 →
  idle_visit self v →
  let '(r, self', out) := notification_handler fuel v now data self in
  r = Returns tt ∧
  out ≡ₚ Release <$> elements (active_keys self) ∧
  active_keys self' = ∅ ∧
  (active_keys self ≠ ∅ → pressed_buttons self' = ∅) ∧
  (active_keys self = ∅ → out = [] ∧ self' = self) ∧
  key_mapping self' = key_mapping self ∧
  last_press_time self' = last_press_time self.
Proof.
  intros Hhd Hv. rewrite handler_idle by done.
  unfold handle_idle. unfold idle_visit, visits in Hv.
  destruct (decide (active_keys self = ∅)) as [Hempty|Hactive]; simpl.
  - rewrite Hempty, elements_empty. repeat split; auto. done.
  - repeat split; auto; try done. by rewrite Hv.
Qed.

End idle.

Lemma idle_releases_active_keys_witness :
  let self := (trigger_keystrokes
                 (sorted_visit (init DEFAULT_KEY_MAPPING)
                    ["SHFT_UP_L_BTN"; "POWERUP_L_BTN"])
                 0%Q ["SHFT_UP_L_BTN"; "POWERUP_L_BTN"]
                 (init DEFAULT_KEY_MAPPING)).1 in
  let '(r, self', out) :=
    notification_handler 8 (sorted_visit self []) 1%Q idle_frame self in
  active_keys self = {["w"; "space"]} ∧
  out ≡ₚ [Release "w"; Release "space"] ∧
  active_keys self' = ∅ ∧ pressed_buttons self' = ∅.
Proof.
  intros self.
  generalize (idle_releases_active_keys 8 (sorted_visit self []) 1%Q
                idle_frame self eq_refl (sorted_visit_idle self [])).
  destruct (notification_handler 8 (sorted_visit self []) 1%Q idle_frame self)
    as [[r self'] out].
  intros (_ & Hout & Hactive & Hpressed & _).
  split; [reflexivity |]. split; [| split; [exact Hactive |]].
  - rewrite Hout. vm_compute. reflexivity.
  - apply Hpressed. vm_compute. discriminate.
Defined.

(** C2, as first stated, fails: with [A_BTN] absent from the key mapping,
    pressing it leaves no key active, and the [Idle] frame that follows does
    not empty the set of pressed buttons. *)
Lemma idle_keeps_pressed_buttons :
  let self0 : Controller Q := init {["B_BTN" := "b"]} in
  let self1 :=
    (notification_handler 8 (sorted_visit self0 ["A_BTN"]) 0%Q
       a_pressed_frame self0).1.2 in
  let self2 :=
    (notification_handler 8 (sorted_visit self1 []) 1%Q idle_frame self1).1.2 in
  active_keys self1 = ∅ ∧
  pressed_buttons self1 = {["A_BTN"]} ∧
  pressed_buttons self2 = {["A_BTN"]} ∧
  pressed_buttons self2 ≠ ∅.
Proof. vm_compute. repeat split. discriminate. Qed.

(** ** Release of every button *)

Section release_all.
Context {T : Type} {clock : Clock T}.
Implicit Types (self s : Controller T) (v : visit) (now : T).

Lemma visits_empty (l : list string) : visits ∅ l → l = [].
Proof.
  unfold visits. rewrite elements_empty. apply Permutation_nil_r.
Qed.

Lemma omap_release_length (mapping : gmap string string) (l : list string) :
  (∀ b, b ∈ l → is_Some (mapping !! b)) →
  length (omap (λ b, Release <$> mapping !! b) l) = length l.
Proof.
  induction l as [|b l IH]; intros Hl; [done |].
  simpl. destruct (Hl b) as [key ->]; [left |].
  simpl. f_equal. apply IH. intros b' Hb'. apply Hl. by right.
Qed.

Lemma trigger_keystrokes_nil v now self :
  trigger_visit self [] v →
  trigger_keystrokes v now [] self =
  (set_pressed_buttons ∅ (for_each release_body (release_order v) self).1,
   omap (λ b, Release <$> key_mapping self !! b) (release_order v)) ∧
  release_order v ≡ₚ elements (pressed_buttons self).
Proof.
  intros (Hrepeat & Hpress & Hrelease). simpl in *.
  rewrite intersection_empty_l_L in Hrepeat.
  rewrite difference_disjoint_L in Hpress by set_solver.
  rewrite difference_empty_L in Hrelease.
  apply visits_empty in Hrepeat, Hpress.
  rewrite trigger_keystrokes_unfold, Hrepeat, Hpress. simpl.
  by rewrite release_loop_calls.
Qed.

End release_all.

(** C1. The release of the last button is not dispatched.  With [A_BTN] and
    [B_BTN] pressed and their keys held, the frame that reports [A_BTN]
    alone releases [b], and the release loop run on no button would
    release [a] and [b]; but for the frame that reports no button the
    handler does not call the dispatcher: no key is released, both
    buttons stay in the set of pressed buttons and both keys stay
    active.  The same holds from every state: that frame changes nothing
    and releases no key. *)
Theorem last_release_is_not_dispatched :
  let self0 : Controller Q := init DEFAULT_KEY_MAPPING in
  let r1 := notification_handler 8 (sorted_visit self0 ["A_BTN"; "B_BTN"]) 0%Q
              a_b_pressed_frame self0 in
  let self1 := r1.1.2 in
  r1.2 = [Press "a"; Press "b"] ∧
  pressed_buttons self1 = {["A_BTN"; "B_BTN"]} ∧
  active_keys self1 = {["a"; "b"]} ∧
  (notification_handler 8 (sorted_visit self1 ["A_BTN"]) (1 # 10)%Q
     a_pressed_frame self1).2 = [Release "b"] ∧
  (trigger_keystrokes (sorted_visit self1 []) (1 # 10)%Q [] self1).2 =
    [Release "a"; Release "b"] ∧
  button_map_of all_released_frame = Returns 0xFFFFFFFF ∧
  parse_button_state 0xFFFFFFFF = [] ∧
  (∀ fuel v now,
     notification_handler fuel v now all_released_frame self1 =
     (Returns tt, self1, [])) ∧
  (∀ (T : Type) (clock : Clock T) fuel v (now : T) (self : Controller T),
     notification_handler fuel v now all_released_frame self =
     (Returns tt, self, [])).
Proof.
  intros self0 r1 self1.
  assert (Hany : ∀ (T : Type) (clock : Clock T) fuel v (now : T)
                   (self : Controller T),
            notification_handler fuel v now all_released_frame self =
            (Returns tt, self, [])).
  { intros T clock fuel v now self.
    rewrite (handler_button_frame fuel v now all_released_frame self 0xFFFFFFFF)
      by reflexivity.
    by rewrite analog_loop_short by (simpl; lia). }
  do 7 (split; [vm_compute; reflexivity |]).
  split; [intros fuel v now; apply Hany | exact Hany].
Qed.

(** ** Buttons without a key *)

Section unmapped.
Context {T : Type} {clock : Clock T}.
Implicit Types (self s : Controller T) (v : visit) (now : T).

Lemma trigger_keystrokes_skipping v now buttons self button :
  key_mapping self !! button = None →
  trigger_keystrokes (skipping button v) now buttons self =
  trigger_keystrokes v now buttons self.
Proof.
  intros Hnone. rewrite !trigger_keystrokes_unfold. simpl.
  assert (Hskip : ∀ b, ¬ b ≠ button → b = button).
  { intros b Hb. by destruct (decide (b = button)). }
  rewrite (for_each_filter (key_mapping self) (repeat_body now)); cycle 1.
  { intros. apply repeat_body_key_mapping. }
  { intros b s' ->%Hskip Hs'. apply repeat_body_unmapped. by rewrite Hs'. }
  { done. }
  set (r1 := for_each (repeat_body now) (repeat_order v) self).
  assert (Hr1 : key_mapping r1.1 = key_mapping self).
  { apply (for_each_keeps key_mapping). intros. apply repeat_body_key_mapping. }
  rewrite (for_each_filter (key_mapping self) (press_body now)); cycle 1.
  { intros. apply press_body_key_mapping. }
  { intros b s' ->%Hskip Hs'. apply press_body_unmapped. by rewrite Hs'. }
  { done. }
  set (r2 := for_each (press_body now) (press_order v) r1.1).
  assert (Hr2 : key_mapping r2.1 = key_mapping self).
  { unfold r2. rewrite (for_each_keeps key_mapping); [done |].
    intros. apply press_body_key_mapping. }
  rewrite (for_each_filter (key_mapping self) release_body); cycle 1.
  { intros. apply release_body_key_mapping. }
  { intros b s' ->%Hskip Hs'. apply release_body_unmapped. by rewrite Hs'. }
  { done. }
  done.
Qed.

Lemma trigger_keystrokes_calls v now buttons self a :
  a ∈ (trigger_keystrokes v now buttons self).2 →
  ∃ b, b ∈ repeat_order v ++ press_order v ++ release_order v ∧
       key_mapping self !! b = Some (action_key a).
Proof.
  rewrite trigger_keystrokes_unfold. simpl.
  set (r1 := for_each (repeat_body now) (repeat_order v) self).
  set (r2 := for_each (press_body now) (press_order v) r1.1).
  assert (Hr1 : key_mapping r1.1 = key_mapping self).
  { apply (for_each_keeps key_mapping). intros. apply repeat_body_key_mapping. }
  assert (Hr2 : key_mapping r2.1 = key_mapping self).
  { unfold r2. rewrite (for_each_keeps key_mapping); [done |].
    intros. apply press_body_key_mapping. }
  rewrite !elem_of_app. intros [Ha|[Ha|Ha]].
  - apply for_each_elem in Ha as (b & s' & Hb & Hs' & Ha);
      [| intros; apply repeat_body_key_mapping].
    apply repeat_body_elem in Ha. exists b.
    split; [rewrite !elem_of_app; auto | congruence].
  - apply for_each_elem in Ha as (b & s' & Hb & Hs' & Ha);
      [| intros; apply press_body_key_mapping].
    apply press_body_elem in Ha as (key & -> & Ha).
    exists b. split; [rewrite !elem_of_app; auto | simpl; congruence].
  - apply for_each_elem in Ha as (b & s' & Hb & Hs' & Ha);
      [| intros; apply release_body_key_mapping].
    apply release_body_elem in Ha as (key & -> & Ha).
    exists b. split; [rewrite !elem_of_app; auto | simpl; congruence].
Qed.

Lemma trigger_keystrokes_unmapped_time v now buttons self button :
  key_mapping self !! button = None →
  last_press_time (trigger_keystrokes v now buttons self).1 !! button =
  last_press_time self !! button.
Proof.
  intros Hnone. rewrite trigger_keystrokes_unfold. simpl.
  set (r1 := for_each (repeat_body now) (repeat_order v) self).
  set (r2 := for_each (press_body now) (press_order v) r1.1).
  assert (Hr1 : key_mapping r1.1 = key_mapping self).
  { apply (for_each_keeps key_mapping). intros. apply repeat_body_key_mapping. }
  rewrite (for_each_keeps last_press_time)
    by (intros; apply release_body_last_press_time).
  unfold r2.
  rewrite (for_each_keeps_mapped (λ s, last_press_time s !! button)
             (key_mapping self)); cycle 1.
  { intros. apply press_body_key_mapping. }
  { intros b s' _ Hs'. destruct (decide (b = button)) as [->|Hne].
    - by rewrite press_body_unmapped by by rewrite Hs'.
    - by apply press_body_other_time. }
  { done. }
  unfold r1.
  rewrite (for_each_keeps_mapped (λ s, last_press_time s !! button)
             (key_mapping self)); cycle 1.
  { intros. apply repeat_body_key_mapping. }
  { intros b s' _ Hs'. destruct (decide (b = button)) as [->|Hne].
    - by rewrite repeat_body_unmapped by by rewrite Hs'.
    - by apply repeat_body_other_time. }
  { done. }
  done.
Qed.

(** C9. A button absent from the key mapping takes no part in a dispatch
    update: in each of the three loops its iteration changes nothing and
    calls nothing, so the update is the one whose loops skip the button;
    every key action is for the key of a mapped button; the button's time
    stamp is untouched; the set of pressed buttons is replaced by the
    current one, the button included when it is pressed. *)
Theorem unmapped_button_ignored v now buttons self button :
  key_mapping self !! button = None →
  (∀ s, key_mapping s = key_mapping self →
        repeat_body now button s = (s, []) ∧
        press_body now button s = (s, []) ∧
        release_body button s = (s, [])) ∧
  trigger_keystrokes v now buttons self =
    trigger_keystrokes (skipping button v) now buttons self ∧
  (∀ a, a ∈ (trigger_keystrokes v now buttons self).2 →
        ∃ b, b ≠ button ∧
             b ∈ repeat_order v ++ press_order v ++ release_order v ∧
             key_mapping self !! b = Some (action_key a)) ∧
  last_press_time (trigger_keystrokes v now buttons self).1 !! button =
    last_press_time self !! button ∧
  pressed_buttons (trigger_keystrokes v now buttons self).1 =
    list_to_set buttons.
Proof.
  intros Hnone. repeat split.
  - apply repeat_body_unmapped. congruence.
  - apply press_body_unmapped. congruence.
  - apply release_body_unmapped. congruence.
  - by rewrite trigger_keystrokes_skipping.
  - intros a Ha. apply trigger_keystrokes_calls in Ha as (b & Hb & Hkey).
    exists b. repeat split; [congruence | done | done].
  - by apply trigger_keystrokes_unmapped_time.
  - by rewrite trigger_keystrokes_unfold.
Qed.

End unmapped.

Lemma unmapped_button_ignored_witness :
  let self : Controller Q := init {["B_BTN" := "b"]} in
  let v := sorted_visit self ["A_BTN"; "B_BTN"] in
  key_mapping self !! "A_BTN" = None ∧
  (trigger_keystrokes v 0%Q ["A_BTN"; "B_BTN"] self).2 = [Press "b"] ∧
  trigger_keystrokes v 0%Q ["A_BTN"; "B_BTN"] self =
    trigger_keystrokes (skipping "A_BTN" v) 0%Q ["A_BTN"; "B_BTN"] self ∧
  pressed_buttons (trigger_keystrokes v 0%Q ["A_BTN"; "B_BTN"] self).1 =
    list_to_set ["A_BTN"; "B_BTN"].
Proof.
  intros self v.
  destruct (unmapped_button_ignored v 0%Q ["A_BTN"; "B_BTN"] self "A_BTN"
              eq_refl) as (_ & Hskip & _ & _ & Hpressed).
  split; [reflexivity |]. split; [reflexivity |].
  split; [exact Hskip | exact Hpressed].
Defined.

(** ** Repeats *)

Section repeats.
Context {T : Type} {clock : Clock T}.
Implicit Types (self s : Controller T) (v : visit) (now : T).

Lemma visits_elem (X : gset string) (l : list string) (b : string) :
  visits X l → b ∈ l ↔ b ∈ X.
Proof. unfold visits. intros ->. apply elem_of_elements. Qed.

Lemma visits_NoDup (X : gset string) (l : list string) :
  visits X l → NoDup l.
Proof. unfold visits. intros ->. apply NoDup_elements. Qed.

Lemma repeat_body_due now button key s :
  key_mapping s !! button = Some key →
  t_ge (t_sub now (default t_zero (last_press_time s !! button)))
       (repeat_delay s) = true →
  (repeat_body now button s).2 =
    (if decide (key ∈ active_keys s) then [Release key] else []) ++ [Press key] ∧
  active_keys (repeat_body now button s).1 = active_keys s ∪ {[key]} ∧
  last_press_time (repeat_body now button s).1 =
    <[button := now]> (last_press_time s).
Proof.
  intros Hkey Hdue. unfold repeat_body. rewrite Hkey, Hdue.
  destruct (decide (key ∈ active_keys s)) as [Hin|Hout]; simpl.
  - repeat split. apply set_eq. intros k.
    rewrite !elem_of_union, elem_of_difference, !elem_of_singleton.
    destruct (decide (k = key)); tauto.
  - done.
Qed.

Lemma repeat_body_early now button key s :
  key_mapping s !! button = Some key →
  t_ge (t_sub now (default t_zero (last_press_time s !! button)))
       (repeat_delay s) = false →
  repeat_body now button s = (s, []).
Proof. intros Hkey Hearly. unfold repeat_body. by rewrite Hkey, Hearly. Qed.

Lemma repeat_body_other_key now b key s :
  key_mapping s !! b ≠ Some key →
  bool_decide (key ∈ active_keys (repeat_body now b s).1) =
  bool_decide (key ∈ active_keys s).
Proof.
  intros Hother. apply bool_decide_ext. unfold repeat_body.
  destruct (key_mapping s !! b) as [key'|]; [| done].
  assert (key' ≠ key) by congruence.
  destruct (t_ge _ _); [| done].
  destruct (decide (key' ∈ active_keys s)); simpl;
    rewrite ?elem_of_union, ?elem_of_difference, ?elem_of_singleton;
    intuition congruence.
Qed.

(** The time stamp of a button is written only by its own iterations. *)
Lemma repeat_loop_other_time now l button s :
  button ∉ l →
  last_press_time (for_each (repeat_body now) l s).1 !! button =
  last_press_time s !! button.
Proof.
  intros Hnotin.
  apply (for_each_keeps (λ s, last_press_time s !! button)).
  intros b s' Hb. apply repeat_body_other_time. by intros ->.
Qed.

Lemma press_loop_other_time now l button s :
  button ∉ l →
  last_press_time (for_each (press_body now) l s).1 !! button =
  last_press_time s !! button.
Proof.
  intros Hnotin.
  apply (for_each_keeps (λ s, last_press_time s !! button)).
  intros b s' Hb. apply press_body_other_time. by intros ->.
Qed.

Lemma press_loop_grows now l s key :
  key ∈ active_keys s → key ∈ active_keys (for_each (press_body now) l s).1.
Proof.
  revert s. induction l as [|b l IH]; intros s Hkey; [done |].
  rewrite for_each_cons. simpl. apply IH. unfold press_body.
  destruct (key_mapping s !! b); simpl; [| done].
  by apply elem_of_union_l.
Qed.

Lemma release_loop_shrinks l s key :
  key ∉ active_keys s → key ∉ active_keys (for_each release_body l s).1.
Proof.
  revert s. induction l as [|b l IH]; intros s Hkey; [done |].
  rewrite for_each_cons. simpl. apply IH. unfold release_body.
  destruct (key_mapping s !! b) as [k|]; simpl; [| done].
  destruct (decide (k ∈ active_keys s)); simpl; [| done].
  by intros [? _]%elem_of_difference.
Qed.

Lemma release_body_other_key b key s :
  key_mapping s !! b ≠ Some key →
  bool_decide (key ∈ active_keys (release_body b s).1) =
  bool_decide (key ∈ active_keys s).
Proof.
  intros Hother. apply bool_decide_ext. unfold release_body.
  destruct (key_mapping s !! b) as [key'|]; [| done].
  assert (key' ≠ key) by congruence.
  destruct (decide (key' ∈ active_keys s)); simpl; [| done].
  rewrite elem_of_difference, elem_of_singleton. intuition congruence.
Qed.

Lemma release_loop_keeps l s key :
  (∀ b, b ∈ l → key_mapping s !! b ≠ Some key) →
  key ∈ active_keys s → key ∈ active_keys (for_each release_body l s).1.
Proof.
  intros Hothers Hkey.
  assert (Hsame : bool_decide (key ∈ active_keys (for_each release_body l s).1)
                  = bool_decide (key ∈ active_keys s)).
  { refine (for_each_keeps_mapped (λ s, bool_decide (key ∈ active_keys s))
              (key_mapping s) release_body l s _ _ eq_refl).
    - intros. apply release_body_key_mapping.
    - intros b s' Hb Hs'. apply release_body_other_key. rewrite Hs'. auto. }
  by rewrite <- (bool_decide_eq_true (key ∈ active_keys _)), Hsame,
    bool_decide_eq_true.
Qed.

Lemma repeat_loop_grows now l s key :
  key ∈ active_keys s → key ∈ active_keys (for_each (repeat_body now) l s).1.
Proof.
  revert s. induction l as [|b l IH]; intros s Hkey; [done |].
  rewrite for_each_cons. simpl. apply IH. unfold repeat_body.
  destruct (key_mapping s !! b) as [k|]; [| done].
  destruct (t_ge _ _); [| done].
  destruct (decide (k ∈ active_keys s)); simpl.
  - apply elem_of_union. destruct (decide (key = k)) as [->|Hne].
    + right. by apply elem_of_singleton.
    + left. apply elem_of_difference. split; [done |].
      by intros ?%elem_of_singleton.
  - by apply elem_of_union_l.
Qed.

Lemma press_body_other_key now b key s :
  key_mapping s !! b ≠ Some key →
  bool_decide (key ∈ active_keys (press_body now b s).1) =
  bool_decide (key ∈ active_keys s).
Proof.
  intros Hother. apply bool_decide_ext. unfold press_body.
  destruct (key_mapping s !! b) as [key'|]; [| done].
  assert (key' ≠ key) by congruence. simpl.
  rewrite elem_of_union, elem_of_singleton. intuition congruence.
Qed.

Lemma loop_keeps_key
    (body : string → Controller T → Controller T * list key_action) l s key :
  (∀ b s', key_mapping (body b s').1 = key_mapping s') →
  (∀ b s', key_mapping s' !! b ≠ Some key →
           bool_decide (key ∈ active_keys (body b s').1) =
           bool_decide (key ∈ active_keys s')) →
  (∀ b, b ∈ l → key_mapping s !! b ≠ Some key) →
  key ∈ active_keys (for_each body l s).1 ↔ key ∈ active_keys s.
Proof.
  intros Hmap Hbody Hothers.
  assert (Hsame : bool_decide (key ∈ active_keys (for_each body l s).1)
                  = bool_decide (key ∈ active_keys s)).
  { refine (for_each_keeps_mapped (λ s, bool_decide (key ∈ active_keys s))
              (key_mapping s) body l s Hmap _ eq_refl).
    intros b s' Hb Hs'. apply Hbody. rewrite Hs'. auto. }
  by rewrite <- (bool_decide_eq_true (key ∈ active_keys _)), Hsame,
    bool_decide_eq_true.
Qed.

Lemma filter_none {A} (P : A → Prop) `{∀ x, Decision (P x)} (l : list A) :
  (∀ x, x ∈ l → ¬ P x) → filter P l = [].
Proof.
  induction l as [|x l IH]; intros Hl; [done |].
  rewrite filter_cons, decide_False by (apply Hl; left).
  apply IH. intros y Hy. apply Hl. by right.
Qed.

Lemma filter_all {A} (P : A → Prop) `{∀ x, Decision (P x)} (l : list A) :
  (∀ x, x ∈ l → P x) → filter P l = l.
Proof.
  induction l as [|x l IH]; intros Hl; [done |].
  rewrite filter_cons, decide_True by (apply Hl; left).
  f_equal. apply IH. intros y Hy. apply Hl. by right.
Qed.

(** C5. A button pressed before and now, and mapped to a key, has exactly
    one iteration in the update, in the repeat loop, run on a controller
    [before] where its time stamp is still the one the update started
    with; every other call of the update is for the key of another mapped
    button.  When [now - last >= repeat_delay], the iteration calls
    [Release key] first if the key is active at that point, then
    [Press key]; the key is active afterwards and the time stamp of the
    button is [now]; at the end of the update the time stamp is [now], and
    the key is active unless a button released by the update has the same
    key.  Otherwise the iteration calls nothing and changes nothing, and
    the time stamp is unchanged at the end of the update.  When no other
    button of the previous and current sets has the same key, the calls of
    the whole update for that key are those of the iteration, the key is
    active when the iteration starts exactly when it was at the start of
    the update, and active at the end exactly when it is after the
    iteration. *)
Theorem repeat_or_debounce v now buttons self button key :
  trigger_visit self buttons v →
  button ∈ buttons →
  button ∈ pressed_buttons self →
  key_mapping self !! button = Some key →
  let last_time := default t_zero (last_press_time self !! button) in
  let result := trigger_keystrokes v now buttons self in
  ∃ l1 l2 rest,
    repeat_order v = l1 ++ button :: l2 ∧
    ¬ (button ∈ l1 ++ l2 ++ press_order v ++ release_order v) ∧
    let before := for_each (repeat_body now) l1 self in
    let step := repeat_body now button before.1 in
    result.2 = before.2 ++ step.2 ++ rest ∧
    (∀ a, a ∈ before.2 ++ rest →
       ∃ b, b ≠ button ∧
            b ∈ pressed_buttons self ∪ list_to_set buttons ∧
            key_mapping self !! b = Some (action_key a)) ∧
    last_press_time before.1 !! button = last_press_time self !! button ∧
    ((∀ b, b ∈ l1 → key_mapping self !! b ≠ Some key) →
     (key ∈ active_keys before.1 ↔ key ∈ active_keys self)) ∧
    (if t_ge (t_sub now last_time) (repeat_delay self) then
       step.2 = (if decide (key ∈ active_keys before.1)
                 then [Release key] else []) ++ [Press key] ∧
       key ∈ active_keys step.1 ∧
       last_press_time step.1 !! button = Some now ∧
       last_press_time result.1 !! button = Some now ∧
       ((∀ b, b ∈ pressed_buttons self → ¬ (b ∈ buttons) →
              key_mapping self !! b ≠ Some key) →
        key ∈ active_keys result.1)
     else
       step = (before.1, []) ∧
       last_press_time result.1 !! button = last_press_time self !! button) ∧
    ((∀ b, b ∈ pressed_buttons self ∪ list_to_set buttons → b ≠ button →
           key_mapping self !! b ≠ Some key) →
     filter (λ a, action_key a = key) result.2 = step.2 ∧
     (key ∈ active_keys before.1 ↔ key ∈ active_keys self) ∧
     (key ∈ active_keys result.1 ↔ key ∈ active_keys step.1)).
Proof.
  intros (Hrepeat & Hpress & Hrelease) Hcur Hprev Hkey last_time result.
  assert (Hcur' : button ∈ (list_to_set buttons : gset string))
    by by apply elem_of_list_to_set.
  assert (Hin : button ∈ repeat_order v).
  { apply (visits_elem _ _ _ Hrepeat). by apply elem_of_intersection. }
  assert (Hnew : button ∉ press_order v).
  { rewrite (visits_elem _ _ _ Hpress). by intros [_ ?]%elem_of_difference. }
  assert (Hold : button ∉ release_order v).
  { rewrite (visits_elem _ _ _ Hrelease). by intros [_ ?]%elem_of_difference. }
  pose proof (visits_NoDup _ _ Hrepeat) as Hnd.
  apply list_elem_of_split in Hin as (l1 & l2 & Hsplit).
  rewrite Hsplit in Hnd.
  apply NoDup_app in Hnd as (_ & Hl1 & [Hl2 _]%NoDup_cons).
  assert (Hnot1 : button ∉ l1) by (intros Hb; apply (Hl1 _ Hb); left).
  (* where the buttons of each loop come from *)
  assert (Hin1 : ∀ b, b ∈ l1 ∨ b ∈ l2 →
            b ∈ pressed_buttons self ∪ list_to_set buttons).
  { intros b Hb. apply elem_of_union_l.
    assert (Hb' : b ∈ repeat_order v).
    { rewrite Hsplit, elem_of_app, elem_of_cons. tauto. }
    apply (visits_elem _ _ _ Hrepeat) in Hb'.
    by apply elem_of_intersection in Hb' as [_ ?]. }
  assert (Hin2 : ∀ b, b ∈ press_order v →
            b ∈ pressed_buttons self ∪ list_to_set buttons).
  { intros b Hb. apply elem_of_union_r.
    apply (visits_elem _ _ _ Hpress) in Hb.
    by apply elem_of_difference in Hb as [? _]. }
  assert (Hin3 : ∀ b, b ∈ release_order v →
            b ∈ pressed_buttons self ∧ ¬ (b ∈ buttons)).
  { intros b Hb. apply (visits_elem _ _ _ Hrelease) in Hb.
    apply elem_of_difference in Hb as [? Hnb]. split; [done |].
    intros Hbb. by apply Hnb, elem_of_list_to_set. }
  set (before := for_each (repeat_body now) l1 self).
  set (step := repeat_body now button before.1).
  set (r1 := for_each (repeat_body now) l2 step.1).
  set (r2 := for_each (press_body now) (press_order v) r1.1).
  set (r3 := for_each release_body (release_order v) r2.1).
  exists l1, l2, (r1.2 ++ r2.2 ++ r3.2).
  assert (Hbmap : key_mapping before.1 = key_mapping self).
  { apply (for_each_keeps key_mapping). intros. apply repeat_body_key_mapping. }
  assert (Hsmap : key_mapping step.1 = key_mapping self).
  { unfold step. by rewrite repeat_body_key_mapping. }
  assert (Hr1map : key_mapping r1.1 = key_mapping self).
  { unfold r1. rewrite (for_each_keeps key_mapping); [done |].
    intros. apply repeat_body_key_mapping. }
  assert (Hr2map : key_mapping r2.1 = key_mapping self).
  { unfold r2. rewrite (for_each_keeps key_mapping); [done |].
    intros. apply press_body_key_mapping. }
  assert (Hbdelay : repeat_delay before.1 = repeat_delay self).
  { apply (for_each_keeps repeat_delay). intros.
    apply repeat_body_repeat_delay. }
  assert (Hbtime : last_press_time before.1 !! button =
                   last_press_time self !! button)
    by by apply repeat_loop_other_time.
  assert (Hresult : result =
    (set_pressed_buttons (list_to_set buttons) r3.1,
     before.2 ++ step.2 ++ r1.2 ++ r2.2 ++ r3.2)).
  { unfold result. rewrite trigger_keystrokes_unfold, Hsplit.
    rewrite for_each_app, for_each_cons. simpl.
    by rewrite <- !app_assoc. }
  assert (Hend : last_press_time result.1 !! button =
                 last_press_time step.1 !! button).
  { rewrite Hresult. simpl. unfold r3.
    rewrite (for_each_keeps last_press_time)
      by (intros; apply release_body_last_press_time).
    unfold r2. rewrite press_loop_other_time by done.
    unfold r1. by rewrite repeat_loop_other_time. }
  assert (Hbefore_active :
    (∀ b, b ∈ l1 → key_mapping self !! b ≠ Some key) →
    key ∈ active_keys before.1 ↔ key ∈ active_keys self).
  { intros Hothers. apply loop_keeps_key; [| | done].
    - intros. apply repeat_body_key_mapping.
    - intros. by apply repeat_body_other_key. }
  assert (Hcalls : ∀ a, a ∈ before.2 ++ r1.2 ++ r2.2 ++ r3.2 →
    ∃ b, b ≠ button ∧
         b ∈ pressed_buttons self ∪ list_to_set buttons ∧
         key_mapping self !! b = Some (action_key a)).
  { intros a. rewrite !elem_of_app. intros [Ha|[Ha|[Ha|Ha]]].
    - apply repeat_loop_calls in Ha as (b & Hb & Hmap).
      exists b. split; [by intros -> |]. split; [apply Hin1; by left | done].
    - apply repeat_loop_calls in Ha as (b & Hb & Hmap).
      exists b. split; [by intros -> |]. split; [apply Hin1; by right |].
      by rewrite <- Hsmap.
    - apply press_loop_presses in Ha as (b & k & Hb & -> & Hmap).
      exists b. split; [by intros -> |]. split; [by apply Hin2 |].
      by rewrite <- Hr1map.
    - apply release_loop_releases in Ha as (b & k & Hb & -> & Hmap).
      exists b. split; [by intros -> |].
      split; [apply elem_of_union_l; by apply Hin3 |].
      by rewrite <- Hr2map. }
  split; [done |]. split.
  { rewrite !elem_of_app. tauto. }
  split; [by rewrite Hresult |]. split; [done |]. split; [done |].
  split; [done |]. split.
  - unfold last_time. rewrite <- Hbtime, <- Hbdelay.
    destruct (t_ge _ _) eqn:Hdue.
    + destruct (repeat_body_due now button key before.1)
        as (Hstep & Hact & Htime); [by rewrite Hbmap | done |].
      fold step in Hstep, Hact, Htime.
      assert (Hnow : last_press_time step.1 !! button = Some now)
        by by rewrite Htime, lookup_insert_eq.
      assert (Hactive : key ∈ active_keys step.1).
      { rewrite Hact. apply elem_of_union_r. by apply elem_of_singleton. }
      split; [done |]. split; [done |]. split; [done |].
      split; [by rewrite Hend |].
      intros Hothers. rewrite Hresult. simpl. unfold r3.
      apply release_loop_keeps.
      * intros b Hb. rewrite Hr2map. destruct (Hin3 b Hb). by apply Hothers.
      * unfold r2. apply press_loop_grows. unfold r1.
        by apply repeat_loop_grows.
    + assert (Hstep : step = (before.1, []))
        by (apply (repeat_body_early now button key); [by rewrite Hbmap | done]).
      split; [done |]. by rewrite Hend, Hstep.
  - intros Hothers.
    assert (Hstep_calls : ∀ a, a ∈ step.2 → action_key a = key).
    { intros a Ha. apply repeat_body_elem in Ha.
      rewrite Hbmap, Hkey in Ha. by injection Ha. }
    split; [| split].
    + rewrite Hresult. simpl. rewrite !filter_app.
      rewrite (filter_none _ before.2), (filter_all _ step.2),
        (filter_none _ r1.2), (filter_none _ r2.2), (filter_none _ r3.2).
      * by rewrite !app_nil_r.
      * intros a Ha Heq.
        destruct (Hcalls a) as (b & Hne & Hb & Hmap);
          [rewrite !elem_of_app; tauto |].
        apply (Hothers b Hb Hne). by rewrite Hmap, Heq.
      * intros a Ha Heq.
        destruct (Hcalls a) as (b & Hne & Hb & Hmap);
          [rewrite !elem_of_app; tauto |].
        apply (Hothers b Hb Hne). by rewrite Hmap, Heq.
      * intros a Ha Heq.
        destruct (Hcalls a) as (b & Hne & Hb & Hmap);
          [rewrite !elem_of_app; tauto |].
        apply (Hothers b Hb Hne). by rewrite Hmap, Heq.
      * done.
      * intros a Ha Heq.
        destruct (Hcalls a) as (b & Hne & Hb & Hmap);
          [rewrite !elem_of_app; tauto |].
        apply (Hothers b Hb Hne). by rewrite Hmap, Heq.
    + apply Hbefore_active. intros b Hb. apply Hothers.
      * apply Hin1. by left.
      * by intros ->.
    + rewrite Hresult. simpl. unfold r3.
      rewrite loop_keeps_key; cycle 1.
      { intros. apply release_body_key_mapping. }
      { intros. by apply release_body_other_key. }
      { intros b Hb. rewrite Hr2map. apply Hothers.
        - apply elem_of_union_l. by apply Hin3.
        - by intros ->. }
      unfold r2. rewrite loop_keeps_key; cycle 1.
      { intros. apply press_body_key_mapping. }
      { intros. by apply press_body_other_key. }
      { intros b Hb. rewrite Hr1map. apply Hothers.
        - by apply Hin2.
        - by intros ->. }
      unfold r1. apply loop_keeps_key.
      * intros. apply repeat_body_key_mapping.
      * intros. by apply repeat_body_other_key.
      * intros b Hb.
        assert (Hn : key_mapping self !! b ≠ Some key).
        { apply Hothers; [apply Hin1; by right | by intros ->]. }
        rewrite <- Hsmap in Hn. exact Hn.
Qed.

End repeats.

Lemma repeat_or_debounce_witness :
  let self0 : Controller Q := init DEFAULT_KEY_MAPPING in
  let self1 :=
    (trigger_keystrokes (sorted_visit self0 ["UP_BTN"]) 0%Q ["UP_BTN"] self0).1 in
  let v := sorted_visit self1 ["UP_BTN"] in
  let result := trigger_keystrokes v (22 # 100)%Q ["UP_BTN"] self1 in
  (∃ l1 l2, repeat_order v = l1 ++ "UP_BTN" :: l2) ∧
  last_press_time result.1 !! "UP_BTN" = Some (22 # 100)%Q ∧
  result.2 = [Release "up"; Press "up"].
Proof.
  intros self0 self1 v result.
  assert (Hcur : "UP_BTN" ∈ ["UP_BTN"]) by apply list_elem_of_here.
  assert (Hprev : "UP_BTN" ∈ pressed_buttons self1)
    by (apply (bool_decide_eq_true_1 ("UP_BTN" ∈ pressed_buttons self1));
        vm_compute; reflexivity).
  destruct (repeat_or_debounce v (22 # 100)%Q ["UP_BTN"] self1 "UP_BTN" "up"
              (sorted_visit_trigger self1 ["UP_BTN"]) Hcur Hprev eq_refl)
    as (l1 & l2 & rest & Hsplit & _ & _ & _ & _ & _ & Hcase & _).
  split; [by exists l1, l2 |]. split; [| reflexivity].
  cbv zeta in Hcase.
  match type of Hcase with
  | if ?c then _ else _ =>
      replace c with true in Hcase by (vm_compute; reflexivity)
  end.
  by destruct Hcase as (_ & _ & _ & Hnow & _).
Defined.

(** The repeat cadence of the specification: [UP_BTN] pressed at 0 s and
    held; nothing at 0.15 s; a release and a press at 0.22 s. *)
Example repeat_cadence :
  let self0 : Controller Q := init DEFAULT_KEY_MAPPING in
  let r0 := trigger_keystrokes (sorted_visit self0 ["UP_BTN"]) 0%Q
              ["UP_BTN"] self0 in
  let r1 := trigger_keystrokes (sorted_visit r0.1 ["UP_BTN"]) (15 # 100)%Q
              ["UP_BTN"] r0.1 in
  let r2 := trigger_keystrokes (sorted_visit r1.1 ["UP_BTN"]) (22 # 100)%Q
              ["UP_BTN"] r1.1 in
  r0.2 = [Press "up"] ∧ r1.2 = [] ∧ r2.2 = [Release "up"; Press "up"] ∧
  last_press_time r1.1 !! "UP_BTN" = Some 0%Q ∧
  last_press_time r2.1 !! "UP_BTN" = Some (22 # 100)%Q.
Proof. vm_compute. repeat split. Qed.

(** ** Order of the calls for one key *)

Lemma release_after_press_app (key : string) (l1 l2 : list key_action) :
  release_after_press key (l1 ++ l2) →
  release_after_press key l1 ∨ release_after_press key l2 ∨
  (Press key ∈ l1 ∧ Release key ∈ l2).
Proof.
  intros (i & j & Hij & Hi & Hj).
  apply lookup_app_Some in Hi as [Hi|[Hlen Hi]];
    apply lookup_app_Some in Hj as [Hj|[Hlen' Hj]].
  - left. by exists i, j.
  - right; right. split; eapply list_elem_of_lookup_2; eauto.
  - apply lookup_lt_Some in Hj. lia.
  - right; left. exists (i - length l1)%nat, (j - length l1)%nat.
    split; [lia | done].
Qed.

Lemma NoDup_snd_injective {A B} (l : list (A * B)) (x1 x2 : A) (y : B) :
  NoDup l.*2 → (x1, y) ∈ l → (x2, y) ∈ l → x1 = x2.
Proof.
  induction l as [|[a b] l IH]; intros Hnd H1 H2; [by inversion H1 |].
  apply NoDup_cons in Hnd as [Hnotin Hnd].
  apply elem_of_cons in H1 as [H1|H1], H2 as [H2|H2]; simplify_eq; auto.
  - destruct Hnotin. apply list_elem_of_fmap. by exists (x2, b).
  - destruct Hnotin. apply list_elem_of_fmap. by exists (x1, b).
Qed.

Lemma DEFAULT_KEY_MAPPING_injective (buttons : gset string) :
  injective_on buttons DEFAULT_KEY_MAPPING.
Proof.
  intros b1 b2 key _ _ H1 H2. unfold DEFAULT_KEY_MAPPING in *.
  apply elem_of_list_to_map_2 in H1, H2.
  eapply NoDup_snd_injective; [| exact H1 | exact H2]. compute_done.
Qed.

Section ordering.
Context {T : Type} {clock : Clock T}.
Implicit Types (self s : Controller T) (v : visit) (now : T).

Lemma repeat_body_ordered now b s key :
  ¬ release_after_press key (repeat_body now b s).2.
Proof.
  intros (i & j & Hij & Hi & Hj). revert Hi Hj. unfold repeat_body.
  destruct (key_mapping s !! b) as [k|]; [| done].
  destruct (t_ge _ _); [| done].
  destruct (decide (k ∈ active_keys s)); simpl;
    destruct i as [|[|i]], j as [|[|j]]; simpl; intros; simplify_eq; lia.
Qed.

Lemma repeat_loop_ordered now l s key :
  NoDup l →
  (∀ b1 b2 k, b1 ∈ l → b2 ∈ l → key_mapping s !! b1 = Some k →
              key_mapping s !! b2 = Some k → b1 = b2) →
  ¬ release_after_press key (for_each (repeat_body now) l s).2.
Proof.
  revert s. induction l as [|b l IH]; intros s Hnd Hinj.
  - simpl. by intros (i & j & _ & Hi & _).
  - apply NoDup_cons in Hnd as [Hb Hnd].
    rewrite for_each_cons. simpl.
    intros [Hrap|[Hrap|[Hp Hr]]]%release_after_press_app.
    + by apply repeat_body_ordered in Hrap.
    + revert Hrap. apply IH; [done |].
      intros b1 b2 k Hb1 Hb2. rewrite repeat_body_key_mapping.
      apply Hinj; by right.
    + apply repeat_body_elem in Hp. simpl in Hp.
      apply for_each_elem in Hr as (b' & s' & Hb' & Hs' & Hr);
        [| intros; apply repeat_body_key_mapping].
      apply repeat_body_elem in Hr. simpl in Hr.
      rewrite Hs', repeat_body_key_mapping in Hr.
      assert (b = b') by (apply (Hinj b b' key); [left | by right | done..]).
      by subst b'.
Qed.

(** C6 (as amended). When the key mapping sends no two buttons of the
    previous and current pressed sets to the same key, the calls of one
    dispatch update never release a key after having pressed it: for each
    key, a release comes before the press (the pair of a repeat) or alone. *)
Theorem no_release_after_press v now buttons self :
  trigger_visit self buttons v →
  injective_on (pressed_buttons self ∪ list_to_set buttons) (key_mapping self) →
  ∀ key, ¬ release_after_press key (trigger_keystrokes v now buttons self).2.
Proof.
  intros (Hrepeat & Hpress & Hrelease) Hinj key.
  rewrite trigger_keystrokes_unfold. simpl.
  set (r1 := for_each (repeat_body now) (repeat_order v) self).
  set (r2 := for_each (press_body now) (press_order v) r1.1).
  set (r3 := for_each release_body (release_order v) r2.1).
  assert (Hr1 : key_mapping r1.1 = key_mapping self).
  { apply (for_each_keeps key_mapping). intros. apply repeat_body_key_mapping. }
  assert (Hr2 : key_mapping r2.1 = key_mapping self).
  { unfold r2. rewrite (for_each_keeps key_mapping); [done |].
    intros. apply press_body_key_mapping. }
  assert (Hin1 : ∀ b, b ∈ repeat_order v →
            b ∈ pressed_buttons self ∧ b ∈ (list_to_set buttons : gset string)).
  { intros b Hb. apply (visits_elem _ _ _ Hrepeat) in Hb.
    apply elem_of_intersection in Hb. tauto. }
  assert (Hin2 : ∀ b, b ∈ press_order v →
            ¬ (b ∈ pressed_buttons self) ∧
            b ∈ (list_to_set buttons : gset string)).
  { intros b Hb. apply (visits_elem _ _ _ Hpress) in Hb.
    apply elem_of_difference in Hb. tauto. }
  assert (Hin3 : ∀ b, b ∈ release_order v →
            b ∈ pressed_buttons self ∧ b ∉ (list_to_set buttons : gset string)).
  { intros b Hb. apply (visits_elem _ _ _ Hrelease) in Hb.
    apply elem_of_difference in Hb. tauto. }
  assert (Hno_release : ∀ k, Release k ∉ r2.2).
  { intros k (b & k' & _ & Heq & _)%press_loop_presses. discriminate Heq. }
  assert (Hno_press : ∀ k, Press k ∉ r3.2).
  { intros k (b & k' & _ & Heq & _)%release_loop_releases. discriminate Heq. }
  assert (Hreleased : Release key ∈ r3.2 →
            ∃ b, b ∈ pressed_buttons self ∧
                 ¬ (b ∈ (list_to_set buttons : gset string)) ∧
                 key_mapping self !! b = Some key).
  { intros (b & k' & Hb & [= <-] & Hkey)%release_loop_releases.
    exists b. destruct (Hin3 b Hb). rewrite <- Hr2. auto. }
  intros [Hrap|[Hrap|[Hp Hr]]]%release_after_press_app.
  - revert Hrap. apply repeat_loop_ordered.
    + by apply visits_NoDup in Hrepeat.
    + intros b1 b2 k [? _]%Hin1 [? _]%Hin1.
      apply Hinj; by apply elem_of_union_l.
  - apply release_after_press_app in Hrap as [Hrap|[Hrap|[Hp Hr]]].
    + destruct Hrap as (i & j & _ & _ & Hj).
      by apply list_elem_of_lookup_2, Hno_release in Hj.
    + destruct Hrap as (i & j & _ & Hi & _).
      by apply list_elem_of_lookup_2, Hno_press in Hi.
    + apply press_loop_presses in Hp as (b & k' & Hb & [= <-] & Hkey).
      destruct (Hreleased Hr) as (b' & Hprev & Hcur & Hkey').
      destruct (Hin2 b Hb) as [Hnew _]. rewrite Hr1 in Hkey.
      assert (b = b'); [| by subst b'].
      apply (Hinj b b' key); [apply elem_of_union_r; by apply Hin2
                             | by apply elem_of_union_l | done | done].
  - apply repeat_loop_calls in Hp as (b & Hb & Hkey). simpl in Hkey.
    apply elem_of_app in Hr as [Hr|Hr]; [by apply Hno_release in Hr |].
    destruct (Hreleased Hr) as (b' & Hprev & Hcur & Hkey').
    destruct (Hin1 b Hb) as [_ Hheld].
    assert (b = b'); [| by subst b'].
    apply (Hinj b b' key); [apply elem_of_union_r; by apply Hin1
                           | by apply elem_of_union_l | done | done].
Qed.

End ordering.

Lemma no_release_after_press_witness :
  let self0 : Controller Q := init DEFAULT_KEY_MAPPING in
  let self1 :=
    (trigger_keystrokes (sorted_visit self0 ["A_BTN"; "B_BTN"]) 0%Q
       ["A_BTN"; "B_BTN"] self0).1 in
  let v := sorted_visit self1 ["UP_BTN"; "A_BTN"] in
  (trigger_keystrokes v 1%Q ["UP_BTN"; "A_BTN"] self1).2 =
    [Release "a"; Press "a"; Press "up"; Release "b"] ∧
  ∀ key, ¬ release_after_press key
             (trigger_keystrokes v 1%Q ["UP_BTN"; "A_BTN"] self1).2.
Proof.
  intros self0 self1 v. split; [reflexivity |].
  apply (no_release_after_press v 1%Q ["UP_BTN"; "A_BTN"] self1).
  - apply sorted_visit_trigger.
  - apply DEFAULT_KEY_MAPPING_injective.
Defined.

(** C6, as first stated, fails: with [A_BTN] and [B_BTN] mapped to the same
    key, pressing [A_BTN] while releasing [B_BTN] presses the key and then
    releases it. *)
Lemma shared_key_released_after_press :
  let self0 : Controller Q :=
    init (<["A_BTN" := "x"]> {["B_BTN" := "x"]}) in
  let self1 :=
    (trigger_keystrokes (sorted_visit self0 ["B_BTN"]) 0%Q ["B_BTN"] self0).1 in
  let out :=
    (trigger_keystrokes (sorted_visit self1 ["A_BTN"]) 1%Q ["A_BTN"] self1).2 in
  pressed_buttons self1 = {["B_BTN"]} ∧
  out = [Press "x"; Release "x"] ∧
  release_after_press "x" out.
Proof.
  split; [reflexivity |]. split; [reflexivity |].
  exists 0%nat, 1%nat. split; [lia |]. split; reflexivity.
Qed.

(** * Further properties of the decoder *)

Lemma byte_val_range (b : byte) : 0 ≤ byte_val b < 256.
Proof.
  unfold byte_val. pose proof (Byte.to_N_bounded b). lia.
Qed.

Lemma lor_shiftl_add (a c s : Z) :
  0 ≤ s → 0 ≤ a < 2 ^ s → Z.lor a (Z.shiftl c s) = a + c * 2 ^ s.
Proof.
  intros Hs Ha. rewrite <- Z.shiftl_mul_pow2 by done.
  assert (Hland : Z.land a (Z.shiftl c s) = 0).
  { apply Z.bits_inj'. intros i Hi. rewrite Z.land_spec, Z.bits_0.
    destruct (Z.lt_ge_cases i s) as [Hlt|Hge].
    - rewrite Z.shiftl_spec_low by done. apply andb_false_r.
    - destruct (Z.eq_dec a 0) as [->|Hnz]; [by rewrite Z.bits_0 |].
      rewrite (Z.bits_above_log2 a i); [done | lia |].
      apply Z.log2_lt_pow2; [lia |].
      assert (2 ^ s ≤ 2 ^ i) by (apply Z.pow_le_mono_r; lia). lia. }
  rewrite <- Z.lxor_lor by done. symmetry. by apply Z.add_nocarry_lxor.
Qed.

(** X1. On a frame of 6 bytes or more the bitmask is the little-endian
    value of bytes 2 to 5, an unsigned 32-bit integer. *)
Theorem button_map_of_little_endian (data : list byte) (b2 b3 b4 b5 : byte) :
  data !! 2%nat = Some b2 → data !! 3%nat = Some b3 →
  data !! 4%nat = Some b4 → data !! 5%nat = Some b5 →
  button_map_of data =
    Returns (byte_val b2 + 2 ^ 8 * byte_val b3 + 2 ^ 16 * byte_val b4
             + 2 ^ 24 * byte_val b5) ∧
  0 ≤ byte_val b2 + 2 ^ 8 * byte_val b3 + 2 ^ 16 * byte_val b4
      + 2 ^ 24 * byte_val b5 < 2 ^ 32.
Proof.
  intros H2 H3 H4 H5.
  pose proof (byte_val_range b2). pose proof (byte_val_range b3).
  pose proof (byte_val_range b4). pose proof (byte_val_range b5).
  split; [| lia].
  unfold button_map_of, getitem. rewrite H2, H3, H4, H5. simpl.
  rewrite (lor_shiftl_add (byte_val b2)) by lia.
  rewrite (lor_shiftl_add _ (byte_val b4)) by lia.
  rewrite (lor_shiftl_add _ (byte_val b5)) by lia.
  f_equal. lia.
Qed.

Lemma button_map_of_little_endian_witness :
  button_map_of a_pressed_frame = Returns 0xFFFFFFEF.
Proof.
  exact (proj1 (button_map_of_little_endian a_pressed_frame xef xff xff xff
                  eq_refl eq_refl eq_refl eq_refl)).
Defined.

Lemma parse_button_loop_filter (m : Z) (items : list (string * Z))
    (acc : list string) :
  parse_button_loop m items acc =
  acc ++ (filter (λ item, Z.land m item.2 = 0) items).*1.
Proof.
  revert acc. induction items as [|[b k] items IH]; intros acc; simpl.
  - by rewrite app_nil_r.
  - rewrite filter_cons. simpl.
    destruct (Z.eqb_spec (Z.land m k) 0) as [Hz|Hnz]; rewrite IH.
    + rewrite decide_True by done. simpl. by rewrite <- app_assoc.
    + by rewrite decide_False by done.
Qed.

(** X2. The buttons reported by [parse_button_state] are button names of
    [BUTTON_MASKS], in the order of the table and each at most once. *)
Theorem parse_button_state_sublist (m : Z) :
  parse_button_state m `sublist_of` BUTTON_MASKS.*1 ∧
  NoDup (parse_button_state m) ∧
  (length (parse_button_state m) ≤ 16)%nat.
Proof.
  assert (Hsub : parse_button_state m `sublist_of` BUTTON_MASKS.*1).
  { unfold parse_button_state. rewrite parse_button_loop_filter.
    apply (fmap_sublist fst), sublist_filter. }
  split; [done |]. split.
  - eapply sublist_NoDup; [apply BUTTON_MASKS_names | exact Hsub].
  - apply sublist_length in Hsub. exact Hsub.
Qed.

Lemma parse_button_loop_ext (m m' : Z) (items : list (string * Z))
    (acc : list string) :
  (∀ item, item ∈ items → Z.land m item.2 = Z.land m' item.2) →
  parse_button_loop m items acc = parse_button_loop m' items acc.
Proof.
  revert acc. induction items as [|[b k] items IH]; intros acc Hext; [done |].
  simpl. replace (Z.land m k) with (Z.land m' k)
    by (symmetry; apply (Hext (b, k)); left).
  destruct (Z.land m' k =? 0); apply IH; intros item Hitem; apply Hext;
    by right.
Qed.

(** X3. Only the 16 mask bits of the bitmask are read: clearing or setting
    any other bit (bits 7 and 15, and bit 18 and above) does not change the
    buttons reported. *)
Theorem parse_button_state_mask_bits (m : Z) :
  ALL_MASKS = 0x37F7F ∧
  parse_button_state (Z.land m ALL_MASKS) = parse_button_state m ∧
  parse_button_state (Z.lor m (Z.lnot ALL_MASKS)) = parse_button_state m.
Proof.
  split; [reflexivity |].
  assert (Hmask : ∀ item, item ∈ BUTTON_MASKS →
                          Z.land ALL_MASKS item.2 = item.2).
  { apply Forall_forall. by repeat constructor. }
  split; apply parse_button_loop_ext; intros item Hitem.
  - by rewrite <- Z.land_assoc, Hmask.
  - rewrite Z.land_lor_distr_l. rewrite <- (Hmask item Hitem) at 2.
    rewrite (Z.land_comm ALL_MASKS), Z.land_assoc, <- (Z.land_assoc _ _ ALL_MASKS).
    rewrite (Z.land_comm item.2), Z.land_assoc.
    rewrite (Z.land_comm _ ALL_MASKS), Z.land_lnot_diag.
    by rewrite Z.land_0_l, Z.lor_0_r.
Qed.

Lemma read_varint_value (cont : list byte) (last : byte) (rest : list byte)
    (offset : nat) (value shift : Z) :
  Forall continues cont → ¬ continues last →
  0 ≤ shift → 0 ≤ value < 2 ^ shift →
  read_varint (cont ++ last :: rest) offset value shift =
  Returns (value + 2 ^ shift * base128 (cont ++ [last]),
           (offset + length cont + 1)%nat).
Proof.
  intros Hcont Hlast. revert offset value shift.
  induction Hcont as [|b cont Hb Hcont IH]; intros offset value shift Hs Hv.
  - simpl. unfold continues in Hlast.
    destruct (Z.eqb_spec (Z.land (byte_val last) 128) 0) as [Hz|Hnz];
      [| by destruct Hlast].
    rewrite lor_shiftl_add by done. do 2 f_equal; lia.
  - simpl. unfold continues in Hb.
    destruct (Z.eqb_spec (Z.land (byte_val b) 128) 0) as [Hz|Hnz]; [done |].
    assert (Hlow : 0 ≤ Z.land (byte_val b) 127 < 128).
    { change 127 with (Z.ones 7). rewrite Z.land_ones by lia.
      apply Z.mod_pos_bound. lia. }
    rewrite IH; [| lia |].
    + rewrite lor_shiftl_add by done.
      rewrite Z.pow_add_r by lia. change (2 ^ 7) with 128.
      do 2 f_equal; [| lia].
      change (base128 ((b :: cont) ++ [last]))
        with (Z.land (byte_val b) 127 + 128 * base128 (cont ++ [last])).
      lia.
    + rewrite lor_shiftl_add by done.
      rewrite Z.pow_add_r by lia. change (2 ^ 7) with 128. nia.
Qed.

(** X4. The varint loop reads the bytes up to the first one with the high
    bit clear, returns their base-128 value, least significant group first,
    and leaves the offset just behind them, whatever follows. *)
Theorem read_varint_decodes (l rest : list byte) (offset : nat) :
  varint l →
  read_varint (l ++ rest) offset 0 0 =
    Returns (base128 l, (offset + length l)%nat) ∧
  0 ≤ base128 l < 2 ^ (7 * Z.of_nat (length l)).
Proof.
  intros (cont & last & -> & Hcont & Hlast). split.
  - rewrite <- app_assoc. simpl.
    rewrite read_varint_value by (done || lia).
    rewrite length_app. simpl. do 2 f_equal; lia.
  - generalize (cont ++ [last]). intros l. induction l as [|b l IH].
    + simpl. lia.
    + assert (Hlow : 0 ≤ Z.land (byte_val b) 127 < 128).
      { change 127 with (Z.ones 7). rewrite Z.land_ones by lia.
        apply Z.mod_pos_bound. lia. }
      change (base128 (b :: l))
        with (Z.land (byte_val b) 127 + 128 * base128 l).
      replace (7 * Z.of_nat (length (b :: l)))
        with (7 + 7 * Z.of_nat (length l)) by (simpl; lia).
      rewrite Z.pow_add_r by lia. change (2 ^ 7) with 128. lia.
Qed.

Lemma read_varint_decodes_witness :
  varint [x80; x01] ∧
  read_varint ([x80; x01] ++ [x10; x02]) 3 0 0 = Returns (128, 5%nat).
Proof.
  assert (Hv : varint [x80; x01]).
  { exists [x80], x01. repeat split; [by repeat constructor |].
    intros Hc. by apply Hc. }
  split; [exact Hv |].
  exact (proj1 (read_varint_decodes [x80; x01] [x10; x02] 3 Hv)).
Defined.

(** X5. The analog loop of a button frame fails to terminate exactly when
    the frame is longer than 7 bytes and both the bytes from index 7 on and
    the last 7 bytes parse as an analog message; in every other case two
    iterations at most end it, with a return or an [IndexError]. *)
Theorem analog_loop_hangs_iff (data : list byte) :
  ((∀ fuel, analog_loop fuel data 7 = Hangs) ↔ rescans data) ∧
  (¬ rescans data →
   ∀ fuel, (2 ≤ fuel)%nat →
     analog_loop fuel data 7 = analog_loop 2 data 7 ∧
     (returns (analog_loop 2 data 7) ∨ raises (analog_loop 2 data 7))).
Proof.
  split; [split |].
  - intros Hhang.
    destruct (decide (7 < length data)%nat) as [Hlen|Hlen]; cycle 1.
    { specialize (Hhang 1%nat). simpl in Hhang.
      by rewrite decide_False in Hhang by done. }
    destruct (parse_analog_message (drop 7 data)) as [[a|]|e|] eqn:H7; cycle 1.
    { specialize (Hhang 1%nat). simpl in Hhang.
      rewrite decide_True in Hhang by done. unfold analog_step in Hhang.
      by rewrite H7 in Hhang. }
    { specialize (Hhang 1%nat). simpl in Hhang.
      rewrite decide_True in Hhang by done. unfold analog_step in Hhang.
      by rewrite H7 in Hhang. }
    { by apply parse_analog_message_total in H7. }
    destruct (parse_analog_message (drop (length data - 7) data))
      as [[a'|]|e|] eqn:Hn; cycle 1.
    1,2: specialize (Hhang 2%nat); simpl in Hhang;
      rewrite decide_True in Hhang by done;
      rewrite (analog_step_some _ _ _ H7) in Hhang; simpl in Hhang;
      rewrite decide_True in Hhang by lia; unfold analog_step in Hhang;
      by rewrite Hn in Hhang.
    { by apply parse_analog_message_total in Hn. }
    split; [done |]. split; eauto.
  - intros Hre fuel. by apply analog_loop_cycle.
  - intros Hno fuel Hfuel.
    destruct (analog_loop_two data fuel Hno Hfuel) as [Heq Hne].
    split; [done |]. by apply total_cases.
Qed.

Lemma analog_loop_hangs_iff_witness :
  analog_loop 5 malformed_varint_frame 7 =
    analog_loop 2 malformed_varint_frame 7 ∧
  (returns (analog_loop 2 malformed_varint_frame 7) ∨
   raises (analog_loop 2 malformed_varint_frame 7)).
Proof.
  apply (proj2 (analog_loop_hangs_iff malformed_varint_frame)); [| lia].
  intros (_ & [a Ha] & _). discriminate Ha.
Defined.

Lemma getitem_take (data : list byte) (n i : nat) :
  (i < n)%nat → getitem (take n data) i = getitem data i.
Proof. intros Hi. unfold getitem. by rewrite lookup_take_lt. Qed.

Lemma button_map_of_take (data : list byte) :
  button_map_of (take 6 data) = button_map_of data.
Proof. unfold button_map_of. by rewrite !getitem_take by lia. Qed.

Section handler_frames.
Context {T : Type} {clock : Clock T}.
Implicit Types (self s : Controller T) (v : visit) (now : T).

(** The controller and the keyboard calls of a notification, whatever the
    outcome of its analog loop. *)
Lemma handler_effect fuel v now data self :
  ((notification_handler fuel v now data self).1.2,
   (notification_handler fuel v now data self).2) =
  match getitem data 0 with
  | Returns msg_type =>
      if msg_type =? 0x23 then
        match button_map_of data with
        | Returns button_map =>
            trigger_if_pressed v now (parse_button_state button_map) self
        | _ => (self, [])
        end
      else if msg_type =? 0x15 then handle_idle v self
      else (self, [])
  | _ => (self, [])
  end.
Proof.
  unfold notification_handler, handle.
  destruct (getitem data 0) as [msg_type| |]; [| done | done].
  destruct (msg_type =? 35) eqn:H23.
  - destruct (button_map_of data) as [m| |]; [| done | done].
    by destruct (trigger_if_pressed v now (parse_button_state m) self).
  - destruct (msg_type =? 42) eqn:H2a.
    + apply Z.eqb_eq in H2a. by subst msg_type.
    + destruct (msg_type =? 21); [by destruct (handle_idle v self) |].
      by destruct (msg_type =? 25).
Qed.

(** X6. The keystrokes of a notification and the controller it leaves
    depend on the first 6 bytes only: the analog part of a frame never
    presses or releases a key, and the fuel of the analog loop plays no
    part. *)
Theorem keystrokes_ignore_analog_part fuel fuel' v now data data' self :
  take 6 data = take 6 data' →
  (notification_handler fuel v now data self).1.2 =
    (notification_handler fuel' v now data' self).1.2 ∧
  (notification_handler fuel v now data self).2 =
    (notification_handler fuel' v now data' self).2.
Proof.
  intros Htake.
  pose proof (handler_effect fuel v now data self) as H1.
  pose proof (handler_effect fuel' v now data' self) as H2.
  rewrite <- (getitem_take data 6 0), <- button_map_of_take, Htake in H1
    by lia.
  rewrite getitem_take, button_map_of_take, <- H2 in H1 by lia.
  by injection H1.
Qed.

(** X7. A frame whose first byte is neither [0x23] nor [0x15] (initial
    status, status update, unknown types) returns without any key action
    and leaves the controller as it was. *)
Theorem other_frames_change_nothing fuel v now data self (b : byte) :
  head data = Some b → b ≠ x23 → b ≠ x15 →
  notification_handler fuel v now data self = (Returns tt, self, []).
Proof.
  intros Hhd H23 H15. destruct data as [|b' data]; simplify_eq/=.
  unfold notification_handler, handle.
  change (getitem (b :: data) 0) with (Returns (byte_val b)).
  destruct b; try done; reflexivity.
Qed.

End handler_frames.

Lemma keystrokes_ignore_analog_part_witness :
  let self : Controller Q := init DEFAULT_KEY_MAPPING in
  let v := sorted_visit self ["A_BTN"; "B_BTN"] in
  (notification_handler 8 v 0%Q malformed_varint_frame self).2 =
  (notification_handler 3 v 0%Q a_b_pressed_frame self).2.
Proof.
  intros self v.
  exact (proj2 (keystrokes_ignore_analog_part 8 3 v 0%Q malformed_varint_frame
                  a_b_pressed_frame self eq_refl)).
Defined.

Lemma other_frames_change_nothing_witness :
  notification_handler 8 (sorted_visit (init DEFAULT_KEY_MAPPING) []) 0%Q
    [x19; x10; x53] (init DEFAULT_KEY_MAPPING)
  = (Returns tt, init DEFAULT_KEY_MAPPING, []).
Proof.
  apply (other_frames_change_nothing 8 _ 0%Q [x19; x10; x53] _ x19);
    [reflexivity | discriminate | discriminate].
Defined.


(** * Further properties of the dispatcher *)

Lemma held_after_app (held : gset string) (o1 o2 : list key_action) :
  held_after held (o1 ++ o2) = held_after (held_after held o1) o2.
Proof. apply foldl_app. Qed.

Lemma held_after_releases (held : gset string) (l : list string) :
  held_after held (Release <$> l) = held ∖ list_to_set l.
Proof.
  revert held. induction l as [|k l IH]; intros held; simpl.
  - by rewrite difference_empty_L.
  - by rewrite IH, difference_difference_l_L.
Qed.

Section ledger.
Context {T : Type} {clock : Clock T}.
Implicit Types (self s : Controller T) (v : visit) (now : T).

Lemma repeat_body_ledger now b s :
  active_keys (repeat_body now b s).1 =
  held_after (active_keys s) (repeat_body now b s).2.
Proof.
  unfold repeat_body. destruct (key_mapping s !! b) as [key|]; [| done].
  destruct (t_ge _ _); [| done].
  by destruct (decide (key ∈ active_keys s)).
Qed.

Lemma press_body_ledger now b s :
  active_keys (press_body now b s).1 =
  held_after (active_keys s) (press_body now b s).2.
Proof. unfold press_body. by destruct (key_mapping s !! b). Qed.

Lemma release_body_ledger b s :
  active_keys (release_body b s).1 =
  held_after (active_keys s) (release_body b s).2.
Proof.
  unfold release_body. destruct (key_mapping s !! b) as [key|]; [| done].
  destruct (decide (key ∈ active_keys s)) as [Hin|Hout]; [done |]. simpl.
  symmetry. apply difference_disjoint_L. by apply disjoint_singleton_r.
Qed.

Lemma for_each_ledger
    (body : string → Controller T → Controller T * list key_action) l s :
  (∀ b s', active_keys (body b s').1 =
           held_after (active_keys s') (body b s').2) →
  active_keys (for_each body l s).1 =
  held_after (active_keys s) (for_each body l s).2.
Proof.
  intros Hbody. revert s. induction l as [|b l IH]; intros s; [done |].
  rewrite for_each_cons. simpl. by rewrite held_after_app, IH, Hbody.
Qed.

Lemma trigger_keystrokes_ledger v now buttons self :
  active_keys (trigger_keystrokes v now buttons self).1 =
  held_after (active_keys self) (trigger_keystrokes v now buttons self).2.
Proof.
  rewrite trigger_keystrokes_unfold. simpl.
  rewrite !held_after_app.
  rewrite (for_each_ledger release_body) by apply release_body_ledger.
  rewrite (for_each_ledger (press_body now)) by apply press_body_ledger.
  by rewrite (for_each_ledger (repeat_body now)) by apply repeat_body_ledger.
Qed.

Lemma handle_idle_ledger v self :
  idle_visit self v →
  active_keys (handle_idle v self).1 =
  held_after (active_keys self) (handle_idle v self).2.
Proof.
  intros Hv. unfold handle_idle.
  destruct (decide (active_keys self = ∅)); [done |]. simpl.
  rewrite held_after_releases. unfold idle_visit, visits in Hv.
  by rewrite Hv, list_to_set_elements_L, difference_diag_L.
Qed.

(** X8. The set [active_keys] is the ledger of the keyboard: after a
    dispatch update, and after any notification, it holds exactly the keys
    that the calls made leave pressed, starting from the keys active
    before. *)
Theorem active_keys_follow_the_calls fuel v now data self :
  idle_visit self v →
  (∀ buttons,
     active_keys (trigger_keystrokes v now buttons self).1 =
     held_after (active_keys self) (trigger_keystrokes v now buttons self).2) ∧
  active_keys (notification_handler fuel v now data self).1.2 =
    held_after (active_keys self) (notification_handler fuel v now data self).2.
Proof.
  intros Hv. split; [intros; apply trigger_keystrokes_ledger |].
  pose proof (handler_effect fuel v now data self) as Heff.
  destruct (notification_handler fuel v now data self) as [[r s'] out].
  simpl in *.
  destruct (getitem data 0) as [msg_type| |]; [| by simplify_eq..].
  destruct (msg_type =? 35).
  - destruct (button_map_of data) as [m| |]; [| by simplify_eq..].
    unfold trigger_if_pressed in Heff.
    destruct (parse_button_state m) as [|b l]; [by simplify_eq |].
    pose proof (trigger_keystrokes_ledger v now (b :: l) self) as Hl.
    rewrite <- Heff in Hl. exact Hl.
  - destruct (msg_type =? 21); [| by simplify_eq].
    pose proof (handle_idle_ledger v self Hv) as Hl.
    rewrite <- Heff in Hl. exact Hl.
Qed.

Lemma for_each_call
    (body : string → Controller T → Controller T * list key_action)
    l1 b l2 s a :
  a ∈ (body b (for_each body l1 s).1).2 →
  a ∈ (for_each body (l1 ++ b :: l2) s).2.
Proof.
  intros Ha. rewrite for_each_app, for_each_cons. simpl.
  rewrite !elem_of_app. auto.
Qed.

(** X9. A mapped button that is pressed now and was not before gets
    [Press key], whatever the time, and its time stamp becomes [now]; the
    key is active after the update unless a button released by the same
    update has the same key. *)
Theorem new_press_is_unconditional v now buttons self button key :
  trigger_visit self buttons v →
  button ∈ buttons →
  button ∉ pressed_buttons self →
  key_mapping self !! button = Some key →
  let result := trigger_keystrokes v now buttons self in
  Press key ∈ result.2 ∧
  last_press_time result.1 !! button = Some now ∧
  ((∀ b, b ∈ pressed_buttons self → b ∉ buttons →
         key_mapping self !! b ≠ Some key) →
   key ∈ active_keys result.1).
Proof.
  intros (Hrepeat & Hpress & Hrelease) Hcur Hprev Hkey result.
  assert (Hin : button ∈ press_order v).
  { apply (visits_elem _ _ _ Hpress). apply elem_of_difference.
    split; [by apply elem_of_list_to_set | done]. }
  apply visits_NoDup in Hpress as Hnd.
  apply list_elem_of_split in Hin as (l1 & l2 & Hsplit).
  rewrite Hsplit in Hnd.
  apply NoDup_app in Hnd as (_ & _ & [Hl2 _]%NoDup_cons).
  unfold result. rewrite trigger_keystrokes_unfold. simpl.
  set (r1 := for_each (repeat_body now) (repeat_order v) self).
  set (r2 := for_each (press_body now) (press_order v) r1.1).
  assert (Hr1 : key_mapping r1.1 = key_mapping self).
  { apply (for_each_keeps key_mapping). intros. apply repeat_body_key_mapping. }
  assert (Hr2 : key_mapping r2.1 = key_mapping self).
  { unfold r2. rewrite (for_each_keeps key_mapping); [done |].
    intros. apply press_body_key_mapping. }
  set (before := for_each (press_body now) l1 r1.1).
  assert (Hbefore : key_mapping before.1 = key_mapping self).
  { unfold before. rewrite (for_each_keeps key_mapping); [done |].
    intros. apply press_body_key_mapping. }
  assert (Hstep : press_body now button before.1 =
    (set_last_press_time (<[button := now]> (last_press_time before.1))
       (set_active_keys (active_keys before.1 ∪ {[key]}) before.1),
     [Press key])).
  { unfold press_body. by rewrite Hbefore, Hkey. }
  assert (Hr2eq : r2 =
    ((for_each (press_body now) l2 (press_body now button before.1).1).1,
     before.2 ++ (press_body now button before.1).2 ++
     (for_each (press_body now) l2 (press_body now button before.1).1).2)).
  { unfold r2. by rewrite Hsplit, for_each_app, for_each_cons. }
  split; [| split].
  - rewrite !elem_of_app. right; left. rewrite Hr2eq, Hstep. simpl.
    apply elem_of_app. right. apply list_elem_of_here.
  - rewrite (for_each_keeps last_press_time)
      by (intros; apply release_body_last_press_time).
    rewrite Hr2eq. simpl. rewrite press_loop_other_time by done.
    rewrite Hstep. simpl. apply lookup_insert_eq.
  - intros Hothers. apply release_loop_keeps.
    + intros b Hb. rewrite Hr2.
      apply (visits_elem _ _ _ Hrelease) in Hb.
      apply elem_of_difference in Hb as [Hb Hnb].
      apply Hothers; [done |]. intros Hin. apply Hnb.
      by apply elem_of_list_to_set.
    + rewrite Hr2eq. simpl. apply press_loop_grows. rewrite Hstep. simpl.
      apply elem_of_union_r. by apply elem_of_singleton.
Qed.

(** X10. A mapped button that was pressed and is no longer gets
    [Release key]; after the update the key is not active, even when a
    button still pressed has the same key, and the time stamp of the button
    is kept. *)
Theorem released_button_is_released v now buttons self button key :
  trigger_visit self buttons v →
  button ∈ pressed_buttons self →
  button ∉ buttons →
  key_mapping self !! button = Some key →
  let result := trigger_keystrokes v now buttons self in
  Release key ∈ result.2 ∧
  ¬ (key ∈ active_keys result.1) ∧
  last_press_time result.1 !! button = last_press_time self !! button.
Proof.
  intros (Hrepeat & Hpress & Hrelease) Hprev Hcur Hkey result.
  assert (Hcur' : button ∉ (list_to_set buttons : gset string))
    by by rewrite elem_of_list_to_set.
  assert (Hin : button ∈ release_order v).
  { apply (visits_elem _ _ _ Hrelease). by apply elem_of_difference. }
  assert (Hnot1 : button ∉ repeat_order v).
  { rewrite (visits_elem _ _ _ Hrepeat). by intros [? _]%elem_of_intersection. }
  assert (Hnot2 : button ∉ press_order v).
  { rewrite (visits_elem _ _ _ Hpress). by intros [? _]%elem_of_difference. }
  apply list_elem_of_split in Hin as (l1 & l2 & Hsplit).
  unfold result. rewrite trigger_keystrokes_unfold. simpl.
  set (r1 := for_each (repeat_body now) (repeat_order v) self).
  set (r2 := for_each (press_body now) (press_order v) r1.1).
  assert (Hr1 : key_mapping r1.1 = key_mapping self).
  { apply (for_each_keeps key_mapping). intros. apply repeat_body_key_mapping. }
  assert (Hr2 : key_mapping r2.1 = key_mapping self).
  { unfold r2. rewrite (for_each_keeps key_mapping); [done |].
    intros. apply press_body_key_mapping. }
  set (before := for_each release_body l1 r2.1).
  assert (Hbefore : key_mapping before.1 = key_mapping self).
  { unfold before. rewrite (for_each_keeps key_mapping); [done |].
    intros. apply release_body_key_mapping. }
  assert (Hcalls : (release_body button before.1).2 = [Release key]).
  { unfold release_body. by rewrite Hbefore, Hkey. }
  assert (Hgone : key ∉ active_keys (release_body button before.1).1).
  { unfold release_body. rewrite Hbefore, Hkey.
    destruct (decide (key ∈ active_keys before.1)); simpl; [| done].
    intros [_ Hne]%elem_of_difference. by apply Hne, elem_of_singleton. }
  split; [| split].
  - rewrite !elem_of_app. right; right. rewrite Hsplit.
    apply for_each_call. fold before. rewrite Hcalls.
    by apply list_elem_of_singleton.
  - rewrite Hsplit, for_each_app, for_each_cons. simpl.
    by apply release_loop_shrinks.
  - rewrite (for_each_keeps last_press_time)
      by (intros; apply release_body_last_press_time).
    unfold r2. rewrite press_loop_other_time by done.
    unfold r1. by rewrite repeat_loop_other_time.
Qed.

Lemma for_each_noop
    (body : string → Controller T → Controller T * list key_action) l s :
  (∀ b, b ∈ l → body b s = (s, [])) → for_each body l s = (s, []).
Proof.
  induction l as [|b l IH]; intros Hbody; [done |].
  rewrite for_each_cons, (Hbody b) by left. simpl.
  rewrite IH; [done |]. intros b' Hb'. apply Hbody. by right.
Qed.

(** X11. Holding the same buttons makes no keyboard call and changes
    nothing as long as no mapped button has reached its repeat delay. *)
Theorem steady_hold_is_silent v now buttons self :
  trigger_visit self buttons v →
  list_to_set buttons = pressed_buttons self →
  (∀ b key, b ∈ pressed_buttons self → key_mapping self !! b = Some key →
     t_ge (t_sub now (default t_zero (last_press_time self !! b)))
          (repeat_delay self) = false) →
  trigger_keystrokes v now buttons self = (self, []).
Proof.
  intros (Hrepeat & Hpress & Hrelease) Hsame Hearly. simpl in *.
  rewrite Hsame in Hrepeat, Hpress, Hrelease.
  rewrite difference_diag_L in Hpress, Hrelease.
  apply visits_empty in Hpress, Hrelease.
  rewrite trigger_keystrokes_unfold, Hpress, Hrelease.
  rewrite (for_each_noop (repeat_body now) (repeat_order v) self).
  - simpl. rewrite Hsame. by destruct self.
  - intros b Hb. apply (visits_elem _ _ _ Hrepeat) in Hb.
    apply elem_of_intersection in Hb as [Hb _].
    destruct (key_mapping self !! b) as [key|] eqn:Hkey.
    + apply (repeat_body_early now b key); [done | by apply (Hearly b key)].
    + by apply repeat_body_unmapped.
Qed.

End ledger.

Section resets.
Context {T : Type} {clock : Clock T}.
Implicit Types (self s : Controller T) (v : visit) (now : T).

Lemma elem_of_keys_of (mapping : gmap string string) (X : gset string)
    (key : string) :
  key ∈ keys_of mapping X ↔ ∃ b, b ∈ X ∧ mapping !! b = Some key.
Proof.
  unfold keys_of. rewrite elem_of_list_to_set, list_elem_of_omap.
  by setoid_rewrite elem_of_elements.
Qed.

Lemma keys_of_visits (mapping : gmap string string) (X : gset string)
    (l : list string) :
  visits X l →
  list_to_set (omap (λ b, mapping !! b) l) = keys_of mapping X.
Proof. unfold visits, keys_of. by intros ->. Qed.

Lemma press_loop_calls_all now l s :
  (for_each (press_body now) l s).2 =
  omap (λ b, Press <$> key_mapping s !! b) l.
Proof.
  revert s. induction l as [|b l IH]; intros s; [done |].
  rewrite for_each_cons. simpl. rewrite IH, press_body_key_mapping.
  unfold press_body. by destruct (key_mapping s !! b).
Qed.

Lemma press_loop_active now l s :
  active_keys (for_each (press_body now) l s).1 =
  active_keys s ∪ list_to_set (omap (λ b, key_mapping s !! b) l).
Proof.
  revert s. induction l as [|b l IH]; intros s.
  - simpl. by rewrite union_empty_r_L.
  - rewrite for_each_cons. simpl. rewrite IH, press_body_key_mapping.
    unfold press_body. destruct (key_mapping s !! b) as [key|]; simpl; [| done].
    by rewrite union_assoc_L.
Qed.

Lemma release_loop_active l s :
  active_keys (for_each release_body l s).1 =
  active_keys s ∖ list_to_set (omap (λ b, key_mapping s !! b) l).
Proof.
  revert s. induction l as [|b l IH]; intros s.
  - simpl. by rewrite difference_empty_L.
  - rewrite for_each_cons. simpl. rewrite IH, release_body_key_mapping.
    unfold release_body. destruct (key_mapping s !! b) as [key|]; simpl; [| done].
    rewrite <- difference_difference_l_L.
    destruct (decide (key ∈ active_keys s)) as [Hin|Hout]; simpl; [done |].
    f_equal. symmetry. apply difference_disjoint_L.
    by apply disjoint_singleton_r.
Qed.

Lemma repeat_loop_active now l s :
  (∀ b key, b ∈ l → key_mapping s !! b = Some key → key ∈ active_keys s) →
  active_keys (for_each (repeat_body now) l s).1 = active_keys s.
Proof.
  revert s. induction l as [|b l IH]; intros s Hactive; [done |].
  assert (Hb : active_keys (repeat_body now b s).1 = active_keys s).
  { unfold repeat_body. destruct (key_mapping s !! b) as [key|] eqn:Hkey;
      [| done].
    destruct (t_ge _ _); [| done].
    assert (Hin : key ∈ active_keys s) by (apply (Hactive b); [left | done]).
    rewrite decide_True by done. simpl.
    apply set_eq. intros k.
    rewrite elem_of_union, elem_of_difference, elem_of_singleton.
    destruct (decide (k = key)) as [->|]; tauto. }
  rewrite for_each_cons. simpl. rewrite IH, Hb; [done |].
  intros b' key Hb' Hkey. rewrite Hb. rewrite repeat_body_key_mapping in Hkey.
  apply (Hactive b'); [by right | done].
Qed.

(** X12. An [Idle] frame that found keys active resets the dispatcher: a
    second [Idle] frame does nothing, and the next dispatch update presses
    the key of every mapped button it is given, without any release and
    whatever the time, and holds exactly those keys. *)
Theorem idle_resets_the_dispatcher v v' now buttons self :
  active_keys self ≠ ∅ →
  let idle := (handle_idle v self).1 in
  trigger_visit idle buttons v' →
  handle_idle v' idle = (idle, []) ∧
  (trigger_keystrokes v' now buttons idle).2 ≡ₚ
    omap (λ b, Press <$> key_mapping self !! b)
      (elements (list_to_set buttons : gset string)) ∧
  active_keys (trigger_keystrokes v' now buttons idle).1 =
    keys_of (key_mapping self) (list_to_set buttons).
Proof.
  intros Hactive idle (Hrepeat & Hpress & Hrelease).
  assert (Hidle : idle = set_pressed_buttons ∅ (set_active_keys ∅ self)).
  { unfold idle, handle_idle. by rewrite decide_False by done. }
  rewrite Hidle in Hrepeat, Hpress, Hrelease. simpl in *.
  rewrite intersection_empty_r_L in Hrepeat.
  rewrite difference_empty_L in Hpress.
  rewrite difference_disjoint_L in Hrelease by apply disjoint_empty_l.
  apply visits_empty in Hrepeat, Hrelease.
  split; [| split].
  - rewrite Hidle. unfold handle_idle. simpl. by rewrite decide_True by done.
  - rewrite trigger_keystrokes_unfold, Hrepeat, Hrelease. simpl.
    rewrite app_nil_r, press_loop_calls_all, Hidle. simpl.
    unfold visits in Hpress. by rewrite Hpress.
  - rewrite trigger_keystrokes_unfold, Hrepeat, Hrelease. simpl.
    rewrite press_loop_active, Hidle. simpl.
    rewrite union_empty_l_L. by apply keys_of_visits.
Qed.

Lemma trigger_keystrokes_consistent v now buttons self :
  trigger_visit self buttons v →
  injective_on (pressed_buttons self ∪ list_to_set buttons) (key_mapping self) →
  consistent self →
  consistent (trigger_keystrokes v now buttons self).1.
Proof.
  intros (Hrepeat & Hpress & Hrelease) Hinj Hcons. unfold consistent in *.
  rewrite trigger_keystrokes_key_mapping.
  rewrite trigger_keystrokes_unfold. simpl.
  set (r1 := for_each (repeat_body now) (repeat_order v) self).
  set (r2 := for_each (press_body now) (press_order v) r1.1).
  assert (Hr1 : key_mapping r1.1 = key_mapping self).
  { apply (for_each_keeps key_mapping). intros. apply repeat_body_key_mapping. }
  assert (Hr2 : key_mapping r2.1 = key_mapping self).
  { unfold r2. rewrite (for_each_keeps key_mapping); [done |].
    intros. apply press_body_key_mapping. }
  rewrite release_loop_active, Hr2, (keys_of_visits _ _ _ Hrelease).
  unfold r2. rewrite press_loop_active, Hr1, (keys_of_visits _ _ _ Hpress).
  unfold r1. rewrite repeat_loop_active; cycle 1.
  { intros b key Hb Hkey. rewrite Hcons. apply elem_of_keys_of.
    exists b. split; [| done].
    apply (visits_elem _ _ _ Hrepeat) in Hb.
    by apply elem_of_intersection in Hb as [_ ?]. }
  rewrite Hcons. apply set_eq. intros key.
  rewrite elem_of_difference, elem_of_union, !elem_of_keys_of. split.
  - intros [[(b & Hb & Hkey)|(b & Hb & Hkey)] Hnot].
    + destruct (decide (b ∈ (list_to_set buttons : gset string))) as [Hc|Hc];
        [by exists b |].
      destruct Hnot. exists b. split; [by apply elem_of_difference | done].
    + exists b. split; [| done]. by apply elem_of_difference in Hb as [? _].
  - intros (b & Hb & Hkey). split.
    + destruct (decide (b ∈ pressed_buttons self)) as [Hp|Hp].
      * left. by exists b.
      * right. exists b. split; [by apply elem_of_difference | done].
    + intros (b' & [Hb' Hnb']%elem_of_difference & Hkey').
      assert (b = b'); [| by subst b'].
      apply (Hinj b b' key);
        [by apply elem_of_union_r | by apply elem_of_union_l | done | done].
Qed.

(** X13. When the key mapping gives different keys to different buttons,
    every notification keeps the active keys equal to the keys of the
    pressed buttons; this holds when the controller is created. *)
Theorem active_keys_match_pressed_buttons fuel v now data self :
  (∀ X, injective_on X (key_mapping self)) →
  (∀ m, button_map_of data = Returns m →
        trigger_visit self (parse_button_state m) v) →
  consistent self →
  consistent (notification_handler fuel v now data self).1.2 ∧
  ∀ mapping, consistent (init mapping).
Proof.
  intros Hinj Hv Hcons. split; [| done].
  pose proof (handler_effect fuel v now data self) as Heff.
  destruct (notification_handler fuel v now data self) as [[r s'] out].
  simpl in *.
  destruct (getitem data 0) as [msg_type| |]; [| by simplify_eq..].
  destruct (msg_type =? 35).
  - destruct (button_map_of data) as [m| |]; [| by simplify_eq..].
    specialize (Hv m eq_refl). unfold trigger_if_pressed in Heff.
    destruct (parse_button_state m) as [|b l]; [by simplify_eq |].
    pose proof (trigger_keystrokes_consistent v now (b :: l) self Hv
                  (Hinj _) Hcons) as Hc.
    by rewrite <- Heff in Hc.
  - destruct (msg_type =? 21); [| by simplify_eq].
    unfold handle_idle in Heff.
    destruct (decide (active_keys self = ∅)); by simplify_eq.
Qed.

Lemma run_ledger fuel frames self :
  run_visits fuel frames self →
  active_keys (run fuel frames self).1.2 =
  held_after (active_keys self) (run fuel frames self).2.
Proof.
  revert self. induction frames as [|[[v now] data] frames IH]; intros self;
    [done |].
  intros (Hidle & _ & Hrest). simpl in *.
  pose proof (handler_effect fuel v now data self) as Heff.
  assert (Hl : active_keys (notification_handler fuel v now data self).1.2 =
               held_after (active_keys self)
                 (notification_handler fuel v now data self).2).
  { clear IH Hrest Heff.
    pose proof (handler_effect fuel v now data self) as Heff.
    destruct (notification_handler fuel v now data self) as [[r s'] out].
    simpl in *.
    destruct (getitem data 0) as [msg_type| |]; [| by simplify_eq..].
    destruct (msg_type =? 35).
    - destruct (button_map_of data) as [m| |]; [| by simplify_eq..].
      unfold trigger_if_pressed in Heff.
      destruct (parse_button_state m) as [|b l]; [by simplify_eq |].
      pose proof (trigger_keystrokes_ledger v now (b :: l) self) as Hl.
      by rewrite <- Heff in Hl.
    - destruct (msg_type =? 21); [| by simplify_eq].
      pose proof (handle_idle_ledger v self Hidle) as Hl.
      by rewrite <- Heff in Hl. }
  destruct (notification_handler fuel v now data self) as [[r s'] out].
  simpl in *. destruct r as [[]| |]; [| done | done].
  specialize (IH s' Hrest).
  destruct (run fuel frames s') as [[r' s''] outs]. simpl in *.
  by rewrite held_after_app, <- Hl.
Qed.

(** X14. Whatever notifications a connection has processed, a [disconnect]
    made while connected releases each active key once, and the calls of
    the whole connection leave no key held that was not held before it
    (none, starting from a new controller).  The pressed buttons and the
    time stamps stay as they were, and a [disconnect] made while not
    connected calls nothing. *)
Theorem disconnect_releases_everything fuel frames self v :
  run_visits fuel frames self →
  let self1 := (run fuel frames self).1.2 in
  let outs := (run fuel frames self).2 in
  idle_visit self1 v →
  let result := disconnect v true self1 in
  result.1.1 = false ∧
  result.2 ≡ₚ Release <$> elements (active_keys self1) ∧
  active_keys result.1.2 = ∅ ∧
  held_after (active_keys self) (outs ++ result.2) = ∅ ∧
  pressed_buttons result.1.2 = pressed_buttons self1 ∧
  last_press_time result.1.2 = last_press_time self1 ∧
  disconnect v false self1 = (false, self1, []).
Proof.
  intros Hrun self1 outs Hv result.
  pose proof (run_ledger fuel frames self Hrun) as Hl.
  fold self1 outs in Hl. unfold idle_visit, visits in Hv.
  unfold result, disconnect. simpl.
  repeat split.
  - by rewrite Hv.
  - rewrite held_after_app, <- Hl, held_after_releases, Hv.
    by rewrite list_to_set_elements_L, difference_diag_L.
Qed.

End resets.

Lemma active_keys_follow_the_calls_witness :
  let self : Controller Q := init DEFAULT_KEY_MAPPING in
  let v := sorted_visit self ["A_BTN"; "B_BTN"] in
  (notification_handler 8 v 0%Q a_b_pressed_frame self).2 =
    [Press "a"; Press "b"] ∧
  active_keys (notification_handler 8 v 0%Q a_b_pressed_frame self).1.2 =
    held_after (active_keys self)
      (notification_handler 8 v 0%Q a_b_pressed_frame self).2.
Proof.
  intros self v. split; [reflexivity |].
  exact (proj2 (active_keys_follow_the_calls 8 v 0%Q a_b_pressed_frame self
                  (sorted_visit_idle self ["A_BTN"; "B_BTN"]))).
Defined.

Lemma new_press_is_unconditional_witness :
  let self : Controller Q := init DEFAULT_KEY_MAPPING in
  let v := sorted_visit self ["A_BTN"] in
  Press "a" ∈ (trigger_keystrokes v 7%Q ["A_BTN"] self).2 ∧
  last_press_time (trigger_keystrokes v 7%Q ["A_BTN"] self).1 !! "A_BTN"
    = Some 7%Q.
Proof.
  intros self v.
  destruct (new_press_is_unconditional v 7%Q ["A_BTN"] self "A_BTN" "a"
              (sorted_visit_trigger self ["A_BTN"])
              (list_elem_of_here _ _) (not_elem_of_empty _) eq_refl)
    as (Hpress & Htime & _).
  by split.
Defined.

Lemma released_button_is_released_witness :
  let self0 : Controller Q := init DEFAULT_KEY_MAPPING in
  let self :=
    (trigger_keystrokes (sorted_visit self0 ["A_BTN"; "B_BTN"]) 0%Q
       ["A_BTN"; "B_BTN"] self0).1 in
  let v := sorted_visit self ["B_BTN"] in
  Release "a" ∈ (trigger_keystrokes v 1%Q ["B_BTN"] self).2 ∧
  ¬ ("a" ∈ active_keys (trigger_keystrokes v 1%Q ["B_BTN"] self).1).
Proof.
  intros self0 self v.
  assert (Hprev : "A_BTN" ∈ pressed_buttons self)
    by (apply (bool_decide_eq_true_1 ("A_BTN" ∈ pressed_buttons self));
        vm_compute; reflexivity).
  assert (Hcur : "A_BTN" ∉ ["B_BTN"])
    by (intros Hin; apply list_elem_of_singleton in Hin; discriminate Hin).
  destruct (released_button_is_released v 1%Q ["B_BTN"] self "A_BTN" "a"
              (sorted_visit_trigger self ["B_BTN"]) Hprev Hcur eq_refl)
    as (Hrel & Hgone & _).
  by split.
Defined.

Lemma steady_hold_is_silent_witness :
  let self0 : Controller Q := init DEFAULT_KEY_MAPPING in
  let self :=
    (trigger_keystrokes (sorted_visit self0 ["UP_BTN"]) 0%Q ["UP_BTN"]
       self0).1 in
  trigger_keystrokes (sorted_visit self ["UP_BTN"]) (15 # 100)%Q ["UP_BTN"]
    self = (self, []).
Proof.
  intros self0 self.
  assert (Hset : pressed_buttons self = {["UP_BTN"]})
    by (vm_compute; reflexivity).
  apply (steady_hold_is_silent (sorted_visit self ["UP_BTN"]) (15 # 100)%Q
           ["UP_BTN"] self).
  - apply sorted_visit_trigger.
  - vm_compute. reflexivity.
  - intros b key Hb Hkey. rewrite Hset in Hb.
    apply elem_of_singleton in Hb. subst b. vm_compute. reflexivity.
Defined.

Lemma idle_resets_the_dispatcher_witness :
  let self0 : Controller Q := init DEFAULT_KEY_MAPPING in
  let self :=
    (trigger_keystrokes (sorted_visit self0 ["A_BTN"; "B_BTN"]) 0%Q
       ["A_BTN"; "B_BTN"] self0).1 in
  let idle := (handle_idle (sorted_visit self []) self).1 in
  let v' := sorted_visit idle ["A_BTN"] in
  active_keys self ≠ ∅ ∧
  handle_idle v' idle = (idle, []) ∧
  active_keys (trigger_keystrokes v' (1 # 100)%Q ["A_BTN"] idle).1 =
    keys_of DEFAULT_KEY_MAPPING (list_to_set ["A_BTN"]).
Proof.
  intros self0 self idle v'.
  assert (Hactive : active_keys self ≠ ∅) by (vm_compute; discriminate).
  split; [exact Hactive |].
  destruct (idle_resets_the_dispatcher (sorted_visit self []) v' (1 # 100)%Q
              ["A_BTN"] self Hactive (sorted_visit_trigger idle ["A_BTN"]))
    as (Hidle & _ & Hkeys).
  split; [exact Hidle | exact Hkeys].
Defined.

Lemma active_keys_match_pressed_buttons_witness :
  let self0 : Controller Q := init DEFAULT_KEY_MAPPING in
  let v := sorted_visit self0 ["A_BTN"; "B_BTN"] in
  consistent (notification_handler 8 v 0%Q a_b_pressed_frame self0).1.2.
Proof.
  intros self0 v.
  apply (active_keys_match_pressed_buttons 8 v 0%Q a_b_pressed_frame self0).
  - intros X. apply DEFAULT_KEY_MAPPING_injective.
  - intros m Hm.
    assert (Hmap : m = 0xFFFFFFCF) by (vm_compute in Hm; congruence).
    rewrite Hmap. apply (sorted_visit_trigger self0 ["A_BTN"; "B_BTN"]).
  - reflexivity.
Defined.

Lemma disconnect_releases_everything_witness :
  let self0 : Controller Q := init DEFAULT_KEY_MAPPING in
  let frames :=
    [(sorted_visit self0 ["A_BTN"; "B_BTN"], 0%Q, a_b_pressed_frame)] in
  let self1 := (run 8 frames self0).1.2 in
  let v := sorted_visit self1 [] in
  run_visits 8 frames self0 ∧
  (run 8 frames self0).2 = [Press "a"; Press "b"] ∧
  (disconnect v true self1).2 = [Release "a"; Release "b"] ∧
  held_after ∅ ((run 8 frames self0).2 ++ (disconnect v true self1).2) = ∅.
Proof.
  intros self0 frames self1 v.
  assert (Hrun : run_visits 8 frames self0).
  { split; [apply sorted_visit_idle |]. split; [| exact I].
    intros m Hm.
    assert (Hmap : m = 0xFFFFFFCF) by (vm_compute in Hm; congruence).
    rewrite Hmap. apply (sorted_visit_trigger self0 ["A_BTN"; "B_BTN"]). }
  split; [exact Hrun |].
  split; [vm_compute; reflexivity |].
  split; [vm_compute; reflexivity |].
  destruct (disconnect_releases_everything 8 frames self0 v Hrun
              (sorted_visit_idle self1 []))
    as (_ & _ & _ & Hheld & _).
  exact Hheld.
Defined.
